(** * Collaborative whiteboard: authoritative history, broadcast routing and
    client reconciliation.

    A shallow embedding of the two socket servers of the repository
    (the server with global undo/redo handling, and the basic server) and of
    the client board of [client/canvas.js], together with the properties of
    the specification that concern them.

    Event payloads arrive over the socket as arbitrary JSON data, so strokes,
    points and cursor positions are modelled as JavaScript values, with the
    language's truthiness test and with property access that throws a
    [TypeError] on [undefined] and [null]. *)

From Stdlib Require Import QArith DecimalString DecimalNat Ascii.
From stdpp Require Import base option list strings gmap.

Set Warnings "-register-all".
Local Open Scope string_scope.
Local Open Scope list_scope.

(** ** JavaScript values *)

(** Numbers: the rational a finite double denotes, the two infinities, NaN. *)
Inductive number :=
| NaN
| NegInfinity
| PosInfinity
| Fin (q : Q).

Inductive value :=
| VUndefined
| VNull
| VBool (b : bool)
| VNum (n : number)
| VStr (s : string)
| VArr (xs : list value)
| VObj (fs : list (string * value)).

(** [!v] is [negb (truthy v)]: the falsy values are [undefined], [null],
    [false], zero, NaN and the empty string. *)
Definition truthy (v : value) : bool :=
  match v with
  | VUndefined | VNull => false
  | VBool b => b
  | VNum NaN => false
  | VNum (Fin q) => negb (Qnum q =? 0)%Z
  | VNum _ => true
  | VStr s => negb (String.eqb s "")
  | VArr _ | VObj _ => true
  end.

Definition nullish (v : value) : bool :=
  match v with
  | VUndefined | VNull => true
  | _ => false
  end.

(** [a || b] on values. *)
Definition js_or (a b : value) : value := if truthy a then a else b.

(** Exceptions and completions of a call. *)
Inductive error := TypeError.

Inductive completion (A : Type) :=
| Normal (a : A)
| Throw (e : error).
Arguments Normal {A} a.
Arguments Throw {A} e.

Definition of_nat (n : nat) : number := Fin (inject_Z (Z.of_nat n)).

(** An object is the list of its own properties; a property is read at its
    first entry. *)
Fixpoint assoc (k : string) (fs : list (string * value)) : value :=
  match fs with
  | [] => VUndefined
  | (k', v) :: fs' => if String.eqb k k' then v else assoc k fs'
  end.

(** [v.k] for a property name [k] that is not an array index, on a value that
    is neither [undefined] nor [null]: an own property of an object, [length]
    of an array or a string (a string being the sequence of its code units),
    and [undefined] otherwise.  None of the names this program reads, [x],
    [y], [id], [points], [color], [size] and [length], is inherited from a
    built-in prototype by the values JSON can carry. *)
Definition field (v : value) (k : string) : value :=
  match v with
  | VObj fs => assoc k fs
  | VArr xs => if String.eqb k "length" then VNum (of_nat (length xs)) else VUndefined
  | VStr s => if String.eqb k "length" then VNum (of_nat (String.length s)) else VUndefined
  | _ => VUndefined
  end.

(** [v.k]: reading a property of [undefined] or [null] throws. *)
Definition prop (v : value) (k : string) : completion value :=
  if nullish v then Throw TypeError else Normal (field v k).

(** [Array.prototype.push] and [Array.prototype.pop] on the list of elements:
    [pop] of an empty array yields [undefined] and leaves it empty. *)
Definition push (l : list value) (x : value) : list value := l ++ [x].

Definition pop (l : list value) : value * list value :=
  match last l with
  | Some x => (x, removelast l)
  | None => (VUndefined, [])
  end.

(** ** Socket messages *)

(** Who receives an emitted message: [io.emit] reaches every connection,
    [socket.broadcast.emit] every connection but the handler's own,
    [socket.emit] the handler's own connection only. *)
Inductive audience :=
| ToAll
| ToOthers (sid : string)
| ToSocket (sid : string).

Definition receives (a : audience) (c : string) : bool :=
  match a with
  | ToAll => true
  | ToOthers sid => negb (String.eqb sid c)
  | ToSocket sid => String.eqb sid c
  end.

(** Handlers run in a state of type [S], produce effects of type [E] in
    order, and return or throw. *)
Definition handler (E S A : Type) : Type := S → completion A * S * list E.

Section Handler.
Context {E S : Type}.

Definition ret {A} (a : A) : handler E S A := λ s, (Normal a, s, []).

Definition bind {A B} (m : handler E S A) (k : A → handler E S B) : handler E S B :=
  λ s, match m s with
       | (Normal a, s1, es1) =>
           match k a s1 with (r, s2, es2) => (r, s2, es1 ++ es2) end
       | (Throw e, s1, es1) => (Throw e, s1, es1)
       end.

Definition throw {A} (e : error) : handler E S A := λ s, (Throw e, s, []).
Definition lift {A} (c : completion A) : handler E S A := λ s, (c, s, []).
Definition get : handler E S S := λ s, (Normal s, s, []).
Definition put (s : S) : handler E S unit := λ _, (Normal tt, s, []).
Definition tell (e : E) : handler E S unit := λ s, (Normal tt, s, [e]).

Definition outcome {A} (r : completion A * S * list E) : completion A := fst (fst r).
Definition state_after {A} (r : completion A * S * list E) : S := snd (fst r).
Definition effects_of {A} (r : completion A * S * list E) : list E := snd r.
End Handler.

#[global] Instance handler_ret {E S} : MRet (handler E S) := λ A, ret.
#[global] Instance handler_bind {E S} : MBind (handler E S) := λ A B k m, bind m k.

Section Wire.
(** [U] is the presence record the server keeps per connection. *)
Context {U : Type}.

Inductive payload :=
| PNone
| PValue (v : value)
| PUsers (u : gmap string U).

Inductive effect :=
| Emit (to : audience) (ev : string) (data : payload)
| ConsoleLog (line : string).

(** The messages connection [c] is sent, in order. *)
Fixpoint delivered (c : string) (es : list effect) : list (string * payload) :=
  match es with
  | [] => []
  | Emit to ev data :: es' =>
      if receives to c then (ev, data) :: delivered c es' else delivered c es'
  | ConsoleLog _ :: es' => delivered c es'
  end.

Definition emit {S} (to : audience) (ev : string) (data : payload) : handler effect S unit :=
  tell (Emit to ev data).
Definition console_log {S} (line : string) : handler effect S unit :=
  tell (ConsoleLog line).
End Wire.
Arguments payload U : clear implicits.
Arguments effect U : clear implicits.

(** ** The server with global undo/redo handling *)

Module Server.

(** [users]: socket id -> [{ name, color }]. *)
Record user := User { name : string; color : string }.

Record state := State {
  users : gmap string user;
  globalHistory : list value;   (* committed strokes *)
  redoStack : list value        (* undone strokes waiting for redo *)
}.

Definition initial : state := State ∅ [] [].

Abbreviation handler := (handler (effect user) state).

Definition set_users (u : gmap string user) : handler unit :=
  λ s, (Normal tt, State u (globalHistory s) (redoStack s), []).
Definition set_globalHistory (h : list value) : handler unit :=
  λ s, (Normal tt, State (users s) h (redoStack s), []).
Definition set_redoStack (r : list value) : handler unit :=
  λ s, (Normal tt, State (users s) (globalHistory s) r, []).

(** [globalHistory.pop()] and [redoStack.pop()], in place. *)
Definition globalHistory_pop : handler value :=
  s ← get; let '(x, h) := pop (globalHistory s) in set_globalHistory h;; mret x.
Definition redoStack_pop : handler value :=
  s ← get; let '(x, r) := pop (redoStack s) in set_redoStack r;; mret x.
Definition globalHistory_push (x : value) : handler unit :=
  s ← get; set_globalHistory (push (globalHistory s) x).
Definition redoStack_push (x : value) : handler unit :=
  s ← get; set_redoStack (push (redoStack s) x).

(** [users[socket.id]?.name || fallback], as it is interpolated in the log
    lines. *)
Definition name_or (sid fallback : string) : handler string :=
  s ← get;
  mret (match users s !! sid with
        | Some u => if String.eqb (name u) "" then fallback else name u
        | None => fallback
        end).

(** [io.on("connection")]: [name] and [color] are what [randomName()] and
    [randomColor()] return. *)
Definition on_connection (sid : string) (name color : string) : handler unit :=
  let newUser := User name color in
  s ← get;
  set_users (<[sid := newUser]> (users s));;
  console_log ("🟢 " +:+ name +:+ " connected (" +:+ sid +:+ ")");;
  s ← get;
  emit ToAll "users:update" (PUsers (users s));;
  emit (ToSocket sid) "init:history" (PValue (VArr (globalHistory s))).

Definition on_draw_start (sid : string) (data : value) : handler unit :=
  emit (ToOthers sid) "draw:start" (PValue data).

Definition on_draw_move (sid : string) (data : value) : handler unit :=
  emit (ToOthers sid) "draw:move" (PValue data).

Definition on_draw_end (sid : string) (stroke : value) : handler unit :=
  globalHistory_push stroke;;
  set_redoStack [];;
  emit ToAll "draw:end" (PValue stroke);;
  s ← get;
  emit ToAll "sync:history" (PValue (VArr (globalHistory s))).

Definition on_cursor_move (sid : string) (pos : value) : handler unit :=
  s ← get;
  match users s !! sid with
  | None => mret tt
  | Some user =>
      x ← lift (prop pos "x");
      y ← lift (prop pos "y");
      emit (ToOthers sid) "cursor:update"
        (PValue (VObj [("id", VStr sid); ("name", VStr (name user));
                       ("color", VStr (color user)); ("x", x); ("y", y)]))
  end.

Definition on_undo (sid : string) : handler unit :=
  last ← globalHistory_pop;
  if truthy last then
    redoStack_push last;;
    s ← get;
    emit ToAll "sync:history" (PValue (VArr (globalHistory s)));;
    who ← name_or sid sid;
    console_log ("↶ Undo performed by " +:+ who)
  else
    emit (ToSocket sid) "undo:empty" PNone.

Definition on_redo (sid : string) : handler unit :=
  item ← redoStack_pop;
  if truthy item then
    globalHistory_push item;;
    s ← get;
    emit ToAll "sync:history" (PValue (VArr (globalHistory s)));;
    who ← name_or sid sid;
    console_log ("↷ Redo performed by " +:+ who)
  else
    emit (ToSocket sid) "redo:empty" PNone.

Definition on_clear_board (sid : string) : handler unit :=
  who ← name_or sid sid;
  console_log ("🧹 Clear board by " +:+ who);;
  set_globalHistory [];;
  set_redoStack [];;
  s ← get;
  emit ToAll "sync:history" (PValue (VArr (globalHistory s))).

Definition on_disconnect (sid : string) : handler unit :=
  who ← name_or sid "User";
  console_log ("🔴 " +:+ who +:+ " disconnected (" +:+ sid +:+ ")");;
  s ← get;
  set_users (delete sid (users s));;
  s ← get;
  emit ToAll "users:update" (PUsers (users s)).

(** The events a connection raises. *)
Inductive event :=
| Connection (name color : string)
| DrawStart (data : value)
| DrawMove (data : value)
| DrawEnd (stroke : value)
| CursorMove (pos : value)
| Undo
| Redo
| ClearBoard
| Disconnect.

Definition handle (sid : string) (e : event) : handler unit :=
  match e with
  | Connection name color => on_connection sid name color
  | DrawStart data => on_draw_start sid data
  | DrawMove data => on_draw_move sid data
  | DrawEnd stroke => on_draw_end sid stroke
  | CursorMove pos => on_cursor_move sid pos
  | Undo => on_undo sid
  | Redo => on_redo sid
  | ClearBoard => on_clear_board sid
  | Disconnect => on_disconnect sid
  end.
End Server.

(** ** The basic server *)

Module BasicServer.

(** [users]: socket id -> [{ name, color }]; the name is whatever the client
    sent with [user:setName]. *)
Record user := User { name : value; color : string }.

Record state := State {
  users : gmap string user;
  globalHistory : list value;
  redoStack : list value
}.

Definition initial : state := State ∅ [] [].

Abbreviation handler := (handler (effect user) state).

Definition set_users (u : gmap string user) : handler unit :=
  λ s, (Normal tt, State u (globalHistory s) (redoStack s), []).
Definition set_globalHistory (h : list value) : handler unit :=
  λ s, (Normal tt, State (users s) h (redoStack s), []).
Definition set_redoStack (r : list value) : handler unit :=
  λ s, (Normal tt, State (users s) (globalHistory s) r, []).

Definition globalHistory_pop : handler value :=
  s ← get; let '(x, h) := pop (globalHistory s) in set_globalHistory h;; mret x.
Definition redoStack_pop : handler value :=
  s ← get; let '(x, r) := pop (redoStack s) in set_redoStack r;; mret x.
Definition globalHistory_push (x : value) : handler unit :=
  s ← get; set_globalHistory (push (globalHistory s) x).
Definition redoStack_push (x : value) : handler unit :=
  s ← get; set_redoStack (push (redoStack s) x).

Definition on_connection (sid : string) : handler unit :=
  console_log ("✅ User connected: " +:+ sid);;
  s ← get;
  set_users (<[sid := User (VStr "Anonymous") "#10A37F"]> (users s));;
  s ← get;
  emit ToAll "users:update" (PUsers (users s)).

(** [users[socket.id].name = name] throws when the entry is missing. *)
Definition on_user_setName (sid : string) (name : value) : handler unit :=
  s ← get;
  match users s !! sid with
  | None => throw TypeError
  | Some u =>
      set_users (<[sid := User name (color u)]> (users s));;
      s ← get;
      emit ToAll "users:update" (PUsers (users s))
  end.

Definition on_draw_end (sid : string) (stroke : value) : handler unit :=
  globalHistory_push stroke;;
  set_redoStack [];;
  emit (ToOthers sid) "draw:end" (PValue stroke).

Definition on_undo (sid : string) : handler unit :=
  last ← globalHistory_pop;
  (if truthy last then redoStack_push last else mret tt);;
  s ← get;
  emit ToAll "sync:history" (PValue (VArr (globalHistory s))).

Definition on_redo (sid : string) : handler unit :=
  redo ← redoStack_pop;
  (if truthy redo then globalHistory_push redo else mret tt);;
  s ← get;
  emit ToAll "sync:history" (PValue (VArr (globalHistory s))).

Definition on_clear_board (sid : string) : handler unit :=
  set_globalHistory [];;
  set_redoStack [];;
  emit ToAll "sync:history" (PValue (VArr [])).

Definition on_disconnect (sid : string) : handler unit :=
  s ← get;
  set_users (delete sid (users s));;
  s ← get;
  emit ToAll "users:update" (PUsers (users s)).

Inductive event :=
| Connection
| UserSetName (name : value)
| DrawEnd (stroke : value)
| Undo
| Redo
| ClearBoard
| Disconnect.

Definition handle (sid : string) (e : event) : handler unit :=
  match e with
  | Connection => on_connection sid
  | UserSetName name => on_user_setName sid name
  | DrawEnd stroke => on_draw_end sid stroke
  | Undo => on_undo sid
  | Redo => on_redo sid
  | ClearBoard => on_clear_board sid
  | Disconnect => on_disconnect sid
  end.
End BasicServer.

(** ** The operation log *)

(** The four structural operations, and a log of them with the connection
    that requested each. *)
Inductive op :=
| Commit (stroke : value)
| OpUndo
| OpRedo
| OpClear.

Definition oplog := list (string * op).

Module ServerRun.
Import Server.

Definition event_of (o : op) : event :=
  match o with
  | Commit stroke => DrawEnd stroke
  | OpUndo => Undo
  | OpRedo => Redo
  | OpClear => ClearBoard
  end.

(** The events of a log, each handled to completion before the next. *)
Fixpoint run (log : oplog) (s : state) : state * list (effect user) :=
  match log with
  | [] => (s, [])
  | (sid, o) :: log' =>
      let r := handle sid (event_of o) s in
      let '(s', es) := run log' (state_after r) in
      (s', effects_of r ++ es)
  end.

(** Every commit of the log carries a stroke that is not in History when it
    arrives. *)
Fixpoint fresh_commits (log : oplog) (s : state) : Prop :=
  match log with
  | [] => True
  | (sid, o) :: log' =>
      match o with Commit x => x ∉ globalHistory s | _ => True end ∧
      fresh_commits log' (state_after (handle sid (event_of o) s))
  end.
End ServerRun.

Module BasicServerRun.
Import BasicServer.

Definition event_of (o : op) : event :=
  match o with
  | Commit stroke => DrawEnd stroke
  | OpUndo => Undo
  | OpRedo => Redo
  | OpClear => ClearBoard
  end.

Fixpoint run (log : oplog) (s : state) : state * list (effect user) :=
  match log with
  | [] => (s, [])
  | (sid, o) :: log' =>
      let r := handle sid (event_of o) s in
      let '(s', es) := run log' (state_after r) in
      (s', effects_of r ++ es)
  end.
End BasicServerRun.

(** The four operations as a function on the pair (History, Redo Stack), and
    the replay of a sequence of them against the empty pair. *)
Definition apply_op (o : op) (hr : list value * list value) : list value * list value :=
  let '(h, r) := hr in
  match o with
  | Commit stroke => (h ++ [stroke], [])
  | OpUndo =>
      match last h with
      | Some x => if truthy x then (removelast h, r ++ [x]) else (removelast h, r)
      | None => (h, r)
      end
  | OpRedo =>
      match last r with
      | Some x => if truthy x then (h ++ [x], removelast r) else (h, removelast r)
      | None => (h, r)
      end
  | OpClear => ([], [])
  end.

Definition replay (ops : list op) : list value * list value :=
  foldl (λ hr o, apply_op o hr) ([], []) ops.

(** ** Numbers and indexing, as the renderer uses them *)

Definition number_lt (a b : number) : bool :=
  match a, b with
  | NaN, _ | _, NaN => false
  | _, NegInfinity => false
  | NegInfinity, _ => true
  | PosInfinity, _ => false
  | Fin _, PosInfinity => true
  | Fin p, Fin q => negb (Qle_bool q p)
  end.

(** [n - 1]. *)
Definition number_pred (n : number) : number :=
  match n with
  | Fin q => Fin (q - 1)
  | _ => n
  end.

(** The property key of an array index. *)
Definition index_key (i : nat) : string := NilEmpty.string_of_uint (Nat.to_uint i).

Definition key_index (k : string) : option nat :=
  Nat.of_uint <$> NilEmpty.uint_of_string k.

(** [v[i]] on a value that is neither [undefined] nor [null]. *)
Definition elem (v : value) (i : nat) : value :=
  match v with
  | VArr xs => default VUndefined (xs !! i)
  | VStr s => match String.get i s with
              | Some c => VStr (String c EmptyString)
              | None => VUndefined
              end
  | VObj fs => assoc (index_key i) fs
  | _ => VUndefined
  end.

(** A bound on the number of indices from [i] on at which a value has an
    element: the loop of [_drawSmooth] throws at the first index without one,
    so it tests its condition at most this many times plus one. *)
Definition extent_from (i : nat) (v : value) : nat :=
  match v with
  | VArr xs => length xs - i
  | VStr s => String.length s - i
  | VObj fs => length (List.filter (λ kv, match key_index kv.1 with
                                     | Some j => (i <=? j)%nat
                                     | None => false
                                     end) fs)
  | _ => 0
  end.

(** ** The client board *)

(** The commands of a 2D context's current path. *)
Inductive segment :=
| MoveTo (x y : value)
| QuadraticCurveTo (cpx cpy x y : value).

(** What one call of [ctx.stroke()] paints: the current path with the
    context's stroke settings. *)
Record paint := Paint {
  paint_style : value;
  paint_width : value;
  paint_cap : string;
  paint_join : string;
  paint_path : list segment
}.

(** A canvas layer with its 2D context: the stroke settings, the current path
    (the path commands issued since [beginPath], with their arguments), and
    the calls of [stroke] since the layer was last cleared. *)
Record context := Context {
  strokeStyle : value;
  lineWidth : value;
  lineCap : string;
  lineJoin : string;
  path : list segment;
  painted : list paint
}.

Definition with_path (p : list segment) (c : context) : context :=
  Context (strokeStyle c) (lineWidth c) (lineCap c) (lineJoin c) p (painted c).

Definition with_painted (ps : list paint) (c : context) : context :=
  Context (strokeStyle c) (lineWidth c) (lineCap c) (lineJoin c) (path c) ps.

(** The settings of a context that nothing has been assigned to. *)
Definition fresh : context := Context (VStr "#000000") (VNum (Fin 1)) "butt" "miter" [] [].

(** Whether a stroked path holds a curve.  A path without one shows nothing:
    a subpath that consists of a single point is not painted. *)
Definition is_curve (sg : segment) : bool :=
  match sg with
  | MoveTo _ _ => false
  | QuadraticCurveTo _ _ _ _ => true
  end.

Definition has_curve (p : paint) : bool := existsb is_curve (paint_path p).

(** Settings and current path overwritten or kept, and paints added. *)
Definition overlay (f : option (value * value * list segment)) (ps : list paint)
    (c : context) : context :=
  match f with
  | Some (style, width, p) => Context style width "round" "round" p (painted c ++ ps)
  | None => with_painted (painted c ++ ps) c
  end.

(** A message the client emits on its socket. *)
Inductive sent := Send (ev : string) (data : value).

(** The board: the three layers, the brush, the local mirror of History, the
    stroke in progress and the in-progress strokes of the others.  (The
    cursor layer and the list of active users are left out; nothing below
    depends on them.) *)
Record board := Board {
  hctx : context;                     (* history layer *)
  rctx : context;                     (* remote-preview layer *)
  lctx : context;                     (* local-live layer *)
  color : value;
  size : value;
  strokes : list value;               (* local mirror of the server's history *)
  currentStroke : list value;
  isDrawing : bool;
  remoteStrokes : gmap string value;  (* own entries of the in-progress map *)
  _localTempId : value;
  lastEmit : Z
}.

Definition with_hctx (c : context) (b : board) : board :=
  Board c (rctx b) (lctx b) (color b) (size b) (strokes b) (currentStroke b)
    (isDrawing b) (remoteStrokes b) (_localTempId b) (lastEmit b).
Definition with_rctx (c : context) (b : board) : board :=
  Board (hctx b) c (lctx b) (color b) (size b) (strokes b) (currentStroke b)
    (isDrawing b) (remoteStrokes b) (_localTempId b) (lastEmit b).
Definition with_lctx (c : context) (b : board) : board :=
  Board (hctx b) (rctx b) c (color b) (size b) (strokes b) (currentStroke b)
    (isDrawing b) (remoteStrokes b) (_localTempId b) (lastEmit b).
Definition with_strokes (l : list value) (b : board) : board :=
  Board (hctx b) (rctx b) (lctx b) (color b) (size b) l (currentStroke b)
    (isDrawing b) (remoteStrokes b) (_localTempId b) (lastEmit b).

(** The snapshot [syncHistory] takes from its argument: the array itself, and
    the empty array for anything that is not an array. *)
Definition snapshot_of (history : value) : list value :=
  match history with VArr xs => xs | _ => [] end.

(** The remote-preview and local-live layers cleared. *)
Definition clear_previews (b : board) : board :=
  with_lctx (with_painted [] (lctx b)) (with_rctx (with_painted [] (rctx b)) b).

Section Client.
(** The language's conversions and arithmetic on arbitrary values, which the
    board only passes through: the colour a 2D context takes from a value
    assigned to [strokeStyle] (the serialisation of the CSS colour the value
    reads as, [None] when it does not read as one), [ToNumber] of a string and
    of an array, [a + b], [a / 2], [ToString] of a value that is not a string,
    and the names under which the in-progress map inherits a property. *)
Variable css_color : value → option string.
Variable string_to_number : string → number.
Variable array_to_number : list value → number.
Variable js_add : value → value → value.
Variable js_half : value → value.
Variable to_string : value → string.
Variable inherited : string → bool.

Definition to_number (v : value) : number :=
  match v with
  | VUndefined => NaN
  | VNull => Fin 0
  | VBool b => Fin (if b then 1 else 0)
  | VNum n => n
  | VStr s => string_to_number s
  | VArr xs => array_to_number xs
  | VObj _ => NaN
  end.

Definition property_key (v : value) : string :=
  match v with
  | VStr s => s
  | _ => to_string v
  end.

(** *** The 2D context *)

Abbreviation drawing := (handler sent context).

(** [ctx.strokeStyle = v]: the context takes the colour [v] reads as, and
    keeps the style it has when [v] does not read as a colour. *)
Definition assigned_style (v old : value) : value :=
  match css_color v with
  | Some col => VStr col
  | None => old
  end.

(** [ctx.lineWidth = v]: the context takes the number [v] converts to, and
    keeps the width it has when that number is zero, negative, infinite or
    NaN. *)
Definition assigned_width (v old : value) : value :=
  match to_number v with
  | Fin q => if Qle_bool q 0 then old else VNum (Fin q)
  | _ => old
  end.

Definition set_strokeStyle (v : value) : drawing unit :=
  λ c, (Normal tt,
        Context (assigned_style v (strokeStyle c)) (lineWidth c) (lineCap c) (lineJoin c)
          (path c) (painted c), []).
Definition set_lineWidth (v : value) : drawing unit :=
  λ c, (Normal tt,
        Context (strokeStyle c) (assigned_width v (lineWidth c)) (lineCap c) (lineJoin c)
          (path c) (painted c), []).
Definition set_lineCap (v : string) : drawing unit :=
  λ c, (Normal tt, Context (strokeStyle c) (lineWidth c) v (lineJoin c) (path c) (painted c), []).
Definition set_lineJoin (v : string) : drawing unit :=
  λ c, (Normal tt, Context (strokeStyle c) (lineWidth c) (lineCap c) v (path c) (painted c), []).
Definition set_path (p : list segment) : drawing unit :=
  λ c, (Normal tt, Context (strokeStyle c) (lineWidth c) (lineCap c) (lineJoin c) p (painted c), []).
Definition set_painted (ps : list paint) : drawing unit :=
  λ c, (Normal tt, Context (strokeStyle c) (lineWidth c) (lineCap c) (lineJoin c) (path c) ps, []).

Definition beginPath : drawing unit := set_path [].
Definition moveTo (x y : value) : drawing unit :=
  c ← get; set_path (path c ++ [MoveTo x y]).
Definition quadraticCurveTo (cpx cpy x y : value) : drawing unit :=
  c ← get; set_path (path c ++ [QuadraticCurveTo cpx cpy x y]).
Definition stroke : drawing unit :=
  c ← get;
  set_painted (painted c ++
    [Paint (strokeStyle c) (lineWidth c) (lineCap c) (lineJoin c) (path c)]).

(** [ctx.clearRect(0, 0, canvas.width, canvas.height)]: the whole layer. *)
Definition clearRect : drawing unit := set_painted [].

(** *** [_drawSmooth] *)

(** The body of the loop at index [i]. *)
Definition curve_to (pts : value) (i : nat) : drawing unit :=
  xi ← lift (prop (elem pts i) "x");
  xj ← lift (prop (elem pts (i + 1)) "x");
  let midX := js_half (js_add xi xj) in
  yi ← lift (prop (elem pts i) "y");
  yj ← lift (prop (elem pts (i + 1)) "y");
  let midY := js_half (js_add yi yj) in
  cpx ← lift (prop (elem pts i) "x");
  cpy ← lift (prop (elem pts i) "y");
  quadraticCurveTo cpx cpy midX midY.

(** [for (let i = ...; i < pts.length - 1; i++)], from index [i], with at
    most [fuel] tests of the condition. *)
Fixpoint curves (fuel : nat) (pts : value) (i : nat) : drawing unit :=
  match fuel with
  | 0 => mret tt
  | S fuel' =>
      len ← lift (prop pts "length");
      if number_lt (of_nat i) (number_pred (to_number len)) then
        curve_to pts i;;
        curves fuel' pts (S i)
      else mret tt
  end.

(** The loop gets one test of its condition more than there can be curves;
    [curves_fuel] below shows that more would change nothing. *)
Definition _drawSmooth (pts color size : value) : drawing unit :=
  if negb (truthy pts) then mret tt
  else
    len ← lift (prop pts "length");
    if number_lt (to_number len) (of_nat 2) then mret tt
    else
      set_strokeStyle color;;
      set_lineWidth size;;
      set_lineJoin "round";;
      set_lineCap "round";;
      beginPath;;
      x0 ← lift (prop (elem pts 0) "x");
      y0 ← lift (prop (elem pts 0) "y");
      moveTo x0 y0;;
      curves (S (extent_from 1 pts)) pts 1;;
      stroke.

(** *** The board's handlers *)

Abbreviation action := (handler sent board).

(** A call on one of the three layers. *)
Definition on_hctx {A} (m : drawing A) : action A :=
  λ b, let '(r, c, es) := m (hctx b) in (r, with_hctx c b, es).
Definition on_rctx {A} (m : drawing A) : action A :=
  λ b, let '(r, c, es) := m (rctx b) in (r, with_rctx c b, es).
Definition on_lctx {A} (m : drawing A) : action A :=
  λ b, let '(r, c, es) := m (lctx b) in (r, with_lctx c b, es).

Definition set_strokes (l : list value) : action unit :=
  λ b, (Normal tt, with_strokes l b, []).
Definition set_currentStroke (l : list value) : action unit :=
  λ b, (Normal tt, Board (hctx b) (rctx b) (lctx b) (color b) (size b) (strokes b) l
                     (isDrawing b) (remoteStrokes b) (_localTempId b) (lastEmit b), []).
Definition set_isDrawing (d : bool) : action unit :=
  λ b, (Normal tt, Board (hctx b) (rctx b) (lctx b) (color b) (size b) (strokes b)
                     (currentStroke b) d (remoteStrokes b) (_localTempId b) (lastEmit b), []).
Definition set_remoteStrokes (m : gmap string value) : action unit :=
  λ b, (Normal tt, Board (hctx b) (rctx b) (lctx b) (color b) (size b) (strokes b)
                     (currentStroke b) (isDrawing b) m (_localTempId b) (lastEmit b), []).
Definition set_localTempId (v : value) : action unit :=
  λ b, (Normal tt, Board (hctx b) (rctx b) (lctx b) (color b) (size b) (strokes b)
                     (currentStroke b) (isDrawing b) (remoteStrokes b) v (lastEmit b), []).
Definition set_lastEmit (t : Z) : action unit :=
  λ b, (Normal tt, Board (hctx b) (rctx b) (lctx b) (color b) (size b) (strokes b)
                     (currentStroke b) (isDrawing b) (remoteStrokes b) (_localTempId b) t, []).

Definition socket_emit (ev : string) (data : value) : action unit := tell (Send ev data).

(** [_start]: [p] is the pointer position [_getPos] computes, [uuid] what
    [crypto.randomUUID()] returns. *)
Definition _start (p : value) (uuid : string) : action unit :=
  set_isDrawing true;;
  set_currentStroke [p];;
  b ← get;
  let startStroke :=
    VObj [("id", VStr uuid); ("points", VArr [p]); ("color", color b); ("size", size b)] in
  set_localTempId (VStr uuid);;
  socket_emit "draw:start" startStroke.

(** [_move]: [now] is what [Date.now()] returns. *)
Definition _move (p : value) (now : Z) : action unit :=
  b ← get;
  if negb (isDrawing b) then mret tt
  else
    set_currentStroke (push (currentStroke b) p);;
    on_lctx clearRect;;
    b ← get;
    on_lctx (_drawSmooth (VArr (currentStroke b)) (color b) (size b));;
    (if (lastEmit b =? 0)%Z then set_lastEmit 0 else mret tt);;
    b ← get;
    if (30 <? now - lastEmit b)%Z then
      socket_emit "draw:move"
        (VObj [("points", VArr [p]); ("color", color b); ("size", size b);
               ("id", _localTempId b)]);;
      set_lastEmit now
    else mret tt.

(** [_end]: [uuid] is what [crypto.randomUUID()] returns if it is called. *)
Definition _end (uuid : string) : action unit :=
  b ← get;
  if negb (isDrawing b) then mret tt
  else
    set_isDrawing false;;
    let stroke :=
      VObj [("id", js_or (_localTempId b) (VStr uuid));
            ("points", VArr (currentStroke b));
            ("color", color b); ("size", size b)] in
    set_strokes (push (strokes b) stroke);;
    points ← lift (prop stroke "points");
    color ← lift (prop stroke "color");
    size ← lift (prop stroke "size");
    on_hctx (_drawSmooth points color size);;
    socket_emit "draw:end" stroke;;
    set_currentStroke [];;
    on_lctx clearRect;;
    set_localTempId VNull.

Definition commitRemoteStroke (stroke : value) : action unit :=
  if negb (truthy stroke) then mret tt
  else
    b ← get;
    set_strokes (push (strokes b) stroke);;
    points ← lift (prop stroke "points");
    color ← lift (prop stroke "color");
    size ← lift (prop stroke "size");
    on_hctx (_drawSmooth points color size);;
    id ← lift (prop stroke "id");
    b ← get;
    if truthy id &&
       match remoteStrokes b !! property_key id with
       | Some entry => truthy entry
       | None => inherited (property_key id)
       end
    then
      set_remoteStrokes (delete (property_key id) (remoteStrokes b));;
      on_rctx clearRect
    else mret tt.

(** [for (const s of this.strokes) this._drawSmooth(this.hctx, ...)]. *)
Fixpoint repaint (l : list value) : action unit :=
  match l with
  | [] => mret tt
  | s :: l' =>
      points ← lift (prop s "points");
      color ← lift (prop s "color");
      size ← lift (prop s "size");
      on_hctx (_drawSmooth points color size);;
      repaint l'
  end.

Definition syncHistory (history : value) : action unit :=
  let history := match history with VArr xs => xs | _ => [] end in
  set_strokes history;;
  on_hctx clearRect;;
  b ← get;
  repaint (strokes b);;
  on_rctx clearRect;;
  on_lctx clearRect.

(** *** The path of a point sequence *)

(** The midpoint coordinate [(a + b) / 2]. *)
Definition mid (a b : value) : value := js_half (js_add a b).

(** The curve of the specification through a list of points, after its
    first point: each point but the last is the control point of a
    quadratic segment that ends at the midpoint to the next point. *)
Fixpoint curve_through (ps : list value) : list segment :=
  match ps with
  | p :: (q :: _) as ps' =>
      QuadraticCurveTo (field p "x") (field p "y")
        (mid (field p "x") (field q "x")) (mid (field p "y") (field q "y"))
      :: curve_through ps'
  | _ => []
  end.

Definition smooth_path (ps : list value) : list segment :=
  match ps with
  | [] => []
  | p0 :: ps' => MoveTo (field p0 "x") (field p0 "y") :: curve_through ps'
  end.

(** The same path read off the loop of [_drawSmooth], for any value: the
    segments it appends and how it completes. *)
Definition curve_segment (pts : value) (i : nat) : completion segment :=
  if nullish (elem pts i) || nullish (elem pts (i + 1)) then Throw TypeError
  else Normal (QuadraticCurveTo (field (elem pts i) "x") (field (elem pts i) "y")
                 (mid (field (elem pts i) "x") (field (elem pts (i + 1)) "x"))
                 (mid (field (elem pts i) "y") (field (elem pts (i + 1)) "y"))).

Fixpoint curve_segments (fuel : nat) (pts : value) (i : nat)
  : completion unit * list segment :=
  match fuel with
  | 0 => (Normal tt, [])
  | S fuel' =>
      if number_lt (of_nat i) (number_pred (to_number (field pts "length"))) then
        match curve_segment pts i with
        | Normal sg =>
            let '(r, sgs) := curve_segments fuel' pts (S i) in (r, sg :: sgs)
        | Throw e => (Throw e, [])
        end
      else (Normal tt, [])
  end.

Definition outline (pts : value) : completion unit * list segment :=
  if nullish (elem pts 0) then (Throw TypeError, [])
  else
    let '(r, sgs) := curve_segments (S (extent_from 1 pts)) pts 1 in
    (r, MoveTo (field (elem pts 0) "x") (field (elem pts 0) "y") :: sgs).

(** A stroke that renders without a type error: a value other than
    [undefined] and [null] whose [points] are missing (or otherwise falsy)
    or an array of points. *)
Definition well_formed_stroke (s : value) : Prop :=
  nullish s = false ∧
  (truthy (field s "points") = false ∨
   ∃ ps, field s "points" = VArr ps ∧ Forall (λ p, nullish p = false) ps).

(** A stroke whose colour and size a context accepts. *)
Definition styled_stroke (s : value) : bool :=
  match css_color (field s "color"), to_number (field s "size") with
  | Some _, Fin q => negb (Qle_bool q 0)
  | _, _ => false
  end.

(** What a well-formed stroke adds to a layer whose context is [c]: one path,
    with the stroke's colour and size where the context accepts them and with
    the settings of [c] where it does not. *)
Definition stroke_paints_on (c : context) (s : value) : list paint :=
  match field s "points" with
  | VArr ps =>
      if (2 <=? length ps)%nat
      then [Paint (assigned_style (field s "color") (strokeStyle c))
              (assigned_width (field s "size") (lineWidth c))
              "round" "round" (smooth_path ps)]
      else []
  | _ => []
  end.

(** The same on a fresh layer; for a stroke whose colour and size a context
    accepts the layer makes no difference. *)
Definition stroke_paints (s : value) : list paint := stroke_paints_on fresh s.

(** The context after a well-formed stroke has been painted. *)
Definition paint_stroke (c : context) (s : value) : context :=
  match field s "points" with
  | VArr ps =>
      if (2 <=? length ps)%nat
      then Context (assigned_style (field s "color") (strokeStyle c))
             (assigned_width (field s "size") (lineWidth c))
             "round" "round" (smooth_path ps) (painted c ++ stroke_paints_on c s)
      else c
  | _ => c
  end.

(** Whether [_drawSmooth] gets past its guard. *)
Definition draws (pts : value) : bool :=
  truthy pts && negb (number_lt (to_number (field pts "length")) (of_nat 2)).

(** What a call of [_drawSmooth] that gets past its guard leaves in the
    context. *)
Definition drawn (pts color size : value) (c : context) : context :=
  let '(r, sgs) := outline pts in
  let style := assigned_style color (strokeStyle c) in
  let width := assigned_width size (lineWidth c) in
  Context style width "round" "round" sgs
    (painted c ++ match r with
                  | Normal _ => [Paint style width "round" "round" sgs]
                  | Throw _ => []
                  end).
End Client.

(** ** Sample data *)

Definition point (x y : Z) : value :=
  VObj [("x", VNum (Fin (inject_Z x))); ("y", VNum (Fin (inject_Z y)))].

Definition stroke_of (id : string) (pts : list value) : value :=
  VObj [("id", VStr id); ("points", VArr pts); ("color", VStr "#10A37F");
        ("size", VNum (Fin 10))].

Definition stroke1 : value := stroke_of "s1" [point 0 0; point 4 2; point 8 6].
Definition stroke2 : value := stroke_of "s2" [point 1 1; point 3 5].

(** A stroke without a colour and a size, as any client may send it. *)
Definition plain_stroke : value :=
  VObj [("id", VStr "s4"); ("points", VArr [point 0 0; point 4 2; point 8 6])].

(** Exact arithmetic on finite numbers, to run the renderer on the samples. *)
Definition exact_add (a b : value) : value :=
  match a, b with
  | VNum (Fin p), VNum (Fin q) => VNum (Fin (p + q))
  | _, _ => VNum NaN
  end.

Definition exact_half (a : value) : value :=
  match a with
  | VNum (Fin p) => VNum (Fin (p / 2))
  | _ => VNum NaN
  end.

Definition preview : paint :=
  Paint (VStr "#e64c3c") (VNum (Fin 10)) "round" "round"
    [MoveTo (VNum (Fin 1)) (VNum (Fin 1));
     QuadraticCurveTo (VNum (Fin 3)) (VNum (Fin 5)) (VNum (Fin 4)) (VNum (Fin 4))].

Definition blank : context := fresh.

(** A board whose remote-preview and local-live layers show something. *)
Definition board0 : board :=
  Board blank (with_painted [preview] blank) (with_painted [preview] blank)
    (VStr "#10A37F") (VNum (Fin 10)) [] [] false ∅ VUndefined 0.

(** The board's functions on the samples.  The samples hold numbers and
    strings only where the code expects them, so the conversions stay unused
    there; the only colours they use are written [#rrggbb], which a context
    serialises in lower case; the in-progress map inherits the names of
    [Object.prototype]. *)
Module Sample.
Definition hex_digit (a : Ascii.ascii) : bool :=
  let n := Ascii.nat_of_ascii a in
  ((48 <=? n) && (n <=? 57) || (65 <=? n) && (n <=? 70) || (97 <=? n) && (n <=? 102))%nat.

Definition lower (a : Ascii.ascii) : Ascii.ascii :=
  let n := Ascii.nat_of_ascii a in
  if ((65 <=? n) && (n <=? 90))%nat then Ascii.ascii_of_nat (n + 32) else a.

Fixpoint code_units (s : string) : list Ascii.ascii :=
  match s with
  | EmptyString => []
  | String a s' => a :: code_units s'
  end.

Fixpoint lower_case (s : string) : string :=
  match s with
  | EmptyString => EmptyString
  | String a s' => String (lower a) (lower_case s')
  end.

(** [#rrggbb] only; a value that is not a string is read through its string,
    which for [undefined], [null], numbers, booleans and plain objects is no
    colour. *)
Definition css_color (v : value) : option string :=
  match v with
  | VStr (String "#"%char digits) =>
      if (length (code_units digits) =? 6)%nat && forallb hex_digit (code_units digits)
      then Some (lower_case (String "#"%char digits))
      else None
  | _ => None
  end.

Definition string_to_number (_ : string) : number := NaN.
Definition array_to_number (_ : list value) : number := NaN.
Definition to_string (_ : value) : string := "[object Object]".
Definition inherited (k : string) : bool :=
  bool_decide (k ∈ ["constructor"; "toString"; "valueOf"; "hasOwnProperty";
                    "isPrototypeOf"; "propertyIsEnumerable"; "toLocaleString";
                    "__proto__"; "__defineGetter__"; "__defineSetter__";
                    "__lookupGetter__"; "__lookupSetter__"]).

Definition _drawSmooth :=
  _drawSmooth css_color string_to_number array_to_number exact_add exact_half.
Definition _start := _start.
Definition _move := _move css_color string_to_number array_to_number exact_add exact_half.
Definition _end := _end css_color string_to_number array_to_number exact_add exact_half.
Definition commitRemoteStroke :=
  commitRemoteStroke css_color string_to_number array_to_number exact_add exact_half
    to_string inherited.
Definition syncHistory :=
  syncHistory css_color string_to_number array_to_number exact_add exact_half.
Definition stroke_paints :=
  stroke_paints css_color string_to_number array_to_number exact_add exact_half.
End Sample.

(** ** Reachable server states and repeated requests *)

Module ServerTrace.
Import Server.

(** The states the server passes through: the state a handler leaves is the
    next handler's state.  The step of a handler that throws is kept here
    too, although it ends the process (see [ServerProcess] below): these are
    at least the states of every run. *)
Inductive reachable : state → Prop :=
| reachable_initial : reachable initial
| reachable_step s sid e : reachable s → reachable (state_after (handle sid e s)).

(** [n] undo requests, and [n] redo requests, of one connection in a row. *)
Definition undos (n : nat) (sid : string) (s : state) : state :=
  Nat.iter n (λ s, state_after (on_undo sid s)) s.

Definition redos (n : nat) (sid : string) (s : state) : state :=
  Nat.iter n (λ s, state_after (on_redo sid s)) s.
End ServerTrace.

(** The state of the server lives in the variables of its node process and
    nowhere else.  The file wraps no listener in [try] and installs no handler
    for uncaught exceptions: an exception that leaves a listener ends the
    process, and with it History and the Redo Stack. *)
Module ServerProcess.
Import Server.

Inductive process :=
| Running (s : state)
| Exited.

Definition receive (sid : string) (e : event) (p : process)
  : process * list (effect user) :=
  match p with
  | Running s =>
      let r := handle sid e s in
      (match outcome r with
       | Normal _ => Running (state_after r)
       | Throw _ => Exited
       end,
       effects_of r)
  | Exited => (Exited, [])
  end.

(** History and the Redo Stack, while there is a process that holds them. *)
Definition stacks (p : process) : option (list value * list value) :=
  match p with
  | Running s => Some (globalHistory s, redoStack s)
  | Exited => None
  end.
End ServerProcess.

Module BasicServerTrace.
Import BasicServer.

Inductive reachable : state → Prop :=
| reachable_initial : reachable initial
| reachable_step s sid e : reachable s → reachable (state_after (handle sid e s)).
End BasicServerTrace.

(** Every [sync:history] among the effects goes to all connections and carries
    the array [h]; every [init:history] carries [h] too. *)
Definition snapshots_carry {U : Type} (h : list value) (es : list (effect U)) : Prop :=
  Forall (λ e, match e with
               | Emit to ev data =>
                   (ev = "sync:history" → to = ToAll ∧ data = PValue (VArr h)) ∧
                   (ev = "init:history" → data = PValue (VArr h))
               | ConsoleLog _ => True
               end) es.

(** ** Pointer events and socket listeners of the client *)

(** The values JSON carries unchanged: no [undefined], no number that is not
    finite, and objects with each name once. *)
Fixpoint json (v : value) : bool :=
  match v with
  | VUndefined => false
  | VNull | VBool _ | VStr _ => true
  | VNum (Fin _) => true
  | VNum _ => false
  | VArr xs => forallb json xs
  | VObj fs => forallb (λ kv, let '(_, x) := kv in json x) fs
               && bool_decide (NoDup (fs.*1))
  end.

(** The stroke [_end] builds from the board. *)
Definition finished_stroke (uuid : string) (b : board) : value :=
  VObj [("id", js_or (_localTempId b) (VStr uuid));
        ("points", VArr (currentStroke b));
        ("color", color b); ("size", size b)].

(** The pointer events the board listens to, with what the environment
    supplies: the position [_getPos] computes, the id [crypto.randomUUID()]
    returns, the time [Date.now()] returns. *)
Inductive pointer :=
| MouseDown (p : value) (uuid : string)
| MouseMove (p : value) (now : Z)
| MouseUp (uuid : string).

Definition moves (l : list (value * Z)) : list pointer :=
  (λ m, MouseMove m.1 m.2) <$> l.

(** The messages a pointer move can send. *)
Definition live_message (m : sent) : Prop :=
  ∃ d, m = Send "cursor:move" d ∨ m = Send "draw:move" d.

(** The cursor message of a pointer move. *)
Definition cursor_message (e : pointer) : option sent :=
  match e with
  | MouseMove p _ => Some (Send "cursor:move" p)
  | _ => None
  end.

Definition is_mouse_down (e : pointer) : bool :=
  match e with MouseDown _ _ => true | _ => false end.

(** What the client does besides emitting on its socket. *)
Inductive client_effect :=
| Emitted (m : sent)
| ConsoleLogged (args : list value).

Section ClientEvents.
Variable css_color : value → option string.
Variable string_to_number : string → number.
Variable array_to_number : list value → number.
Variable js_add : value → value → value.
Variable js_half : value → value.
Variable to_string : value → string.
Variable inherited : string → bool.

(** The listeners [_bindEvents] installs: a mouse move sends the cursor
    position, then goes through [_move]. *)
Definition on_pointer (e : pointer) : handler sent board unit :=
  match e with
  | MouseDown p uuid => _start p uuid
  | MouseMove p now =>
      socket_emit "cursor:move" p;;
      _move css_color string_to_number array_to_number js_add js_half p now
  | MouseUp uuid => _end css_color string_to_number array_to_number js_add js_half uuid
  end.

(** Pointer events one after the other; each listener runs on the board the
    previous one left, also when that one threw. *)
Fixpoint run_pointer (es : list pointer) (b : board) : board * list sent :=
  match es with
  | [] => (b, [])
  | e :: es' =>
      let r := on_pointer e b in
      let '(b', out) := run_pointer es' (state_after r) in
      (b', effects_of r ++ out)
  end.

Definition lift_action {A} (m : handler sent board A) : handler client_effect board A :=
  λ b, let '(r, b', es) := m b in (r, b', Emitted <$> es).

(** The socket listeners of [websocket.js] that end in the board functions
    modelled here. *)
Definition on_init_history (history : value) : handler client_effect board unit :=
  tell (ConsoleLogged
          [VStr "init:history received";
           js_or (if nullish history then VUndefined else field history "length")
                 (VNum (Fin 0))]);;
  lift_action (syncHistory css_color string_to_number array_to_number js_add js_half history).

Definition on_sync_history (history : value) : handler client_effect board unit :=
  lift_action (syncHistory css_color string_to_number array_to_number js_add js_half history).

Definition on_draw_end_message (data : value) : handler client_effect board unit :=
  lift_action (commitRemoteStroke css_color string_to_number array_to_number js_add js_half
                 to_string inherited data).

(** The listener for an event name: [None] where the listener is not modelled
    ([users:update], [draw:start], [draw:move], [cursor:update], [connect]);
    an event without a listener is dropped. *)
Definition listener (ev : string) : option (value → handler client_effect board unit) :=
  if String.eqb ev "init:history" then Some on_init_history
  else if String.eqb ev "sync:history" then Some on_sync_history
  else if String.eqb ev "draw:end" then Some on_draw_end_message
  else if String.eqb ev "users:update" || String.eqb ev "draw:start"
          || String.eqb ev "draw:move" || String.eqb ev "cursor:update"
          || String.eqb ev "connect"
  then None
  else Some (λ _, mret tt).

(** The argument a listener gets for a payload: the emitted value when JSON
    carries it unchanged, [undefined] when nothing was emitted with the
    event; not modelled otherwise. *)
Definition arrives {U : Type} (p : payload U) : option value :=
  match p with
  | PNone => Some VUndefined
  | PValue v => if json v then Some v else None
  | PUsers _ => None
  end.

(** The messages a connection is sent, handled in order. *)
Fixpoint deliver {U : Type} (msgs : list (string * payload U)) (b : board)
  : option (board * list client_effect) :=
  match msgs with
  | [] => Some (b, [])
  | (ev, p) :: msgs' =>
      match listener ev, arrives p with
      | Some f, Some v =>
          let r := f v b in
          match deliver msgs' (state_after r) with
          | Some (b', out) => Some (b', effects_of r ++ out)
          | None => None
          end
      | _, _ => None
      end
  end.
End ClientEvents.

(** * Properties *)

(** ** Arrays as stacks *)

Lemma pop_nil : pop [] = (VUndefined, []).
Proof. reflexivity. Qed.

Lemma pop_snoc l x : pop (l ++ [x]) = (x, l).
Proof. unfold pop. by rewrite last_snoc, removelast_last. Qed.

Lemma list_nil_or_snoc (l : list value) : l = [] ∨ ∃ l' x, l = l' ++ [x].
Proof.
  induction l as [|y l' _] using rev_ind; [by left | right; eauto].
Qed.

Lemma pop_spec l :
  pop l = match last l with Some x => (x, removelast l) | None => (VUndefined, l) end.
Proof. destruct (list_nil_or_snoc l) as [->|(l' & x & ->)]; [done|]. unfold pop. by rewrite last_snoc. Qed.

(** Unfolding of the handler monad. *)
Ltac monad_unfold :=
  cbv beta iota zeta delta
    [mbind mret handler_bind handler_ret bind ret get put tell lift throw
     emit console_log outcome state_after effects_of].

(** ** The handlers of the two servers, as equations *)

Module ServerFacts.
Import Server.

Lemma on_undo_unfold sid s :
  on_undo sid s =
  let '(x, h) := pop (globalHistory s) in
  if truthy x then
    (Normal tt, State (users s) h (redoStack s ++ [x]),
     [Emit ToAll "sync:history" (PValue (VArr h));
      ConsoleLog ("↶ Undo performed by " +:+
        match users s !! sid with
        | Some u => if String.eqb (name u) "" then sid else name u
        | None => sid
        end)])
  else
    (Normal tt, State (users s) h (redoStack s), [Emit (ToSocket sid) "undo:empty" PNone]).
Proof.
  unfold on_undo, globalHistory_pop, redoStack_push, name_or,
    set_globalHistory, set_redoStack.
  monad_unfold.
  destruct (pop (globalHistory s)) as [x h].
  by destruct (truthy x).
Qed.

Lemma on_redo_unfold sid s :
  on_redo sid s =
  let '(x, r) := pop (redoStack s) in
  if truthy x then
    (Normal tt, State (users s) (globalHistory s ++ [x]) r,
     [Emit ToAll "sync:history" (PValue (VArr (globalHistory s ++ [x])));
      ConsoleLog ("↷ Redo performed by " +:+
        match users s !! sid with
        | Some u => if String.eqb (name u) "" then sid else name u
        | None => sid
        end)])
  else
    (Normal tt, State (users s) (globalHistory s) r, [Emit (ToSocket sid) "redo:empty" PNone]).
Proof.
  unfold on_redo, redoStack_pop, globalHistory_push, name_or,
    set_globalHistory, set_redoStack.
  monad_unfold.
  destruct (pop (redoStack s)) as [x r].
  by destruct (truthy x).
Qed.

Lemma on_draw_end_unfold sid stroke s :
  on_draw_end sid stroke s =
  (Normal tt, State (users s) (globalHistory s ++ [stroke]) [],
   [Emit ToAll "draw:end" (PValue stroke);
    Emit ToAll "sync:history" (PValue (VArr (globalHistory s ++ [stroke])))]).
Proof. reflexivity. Qed.

Lemma on_clear_board_unfold sid s :
  on_clear_board sid s =
  (Normal tt, State (users s) [] [],
   [ConsoleLog ("🧹 Clear board by " +:+
      match users s !! sid with
      | Some u => if String.eqb (name u) "" then sid else name u
      | None => sid
      end);
    Emit ToAll "sync:history" (PValue (VArr []))]).
Proof. reflexivity. Qed.

Lemma on_cursor_move_state sid pos s : state_after (on_cursor_move sid pos s) = s.
Proof.
  unfold on_cursor_move. monad_unfold.
  destruct (users s !! sid) as [u|]; [|done].
  unfold prop. by destruct (nullish pos).
Qed.

Lemma server_state_eta s : State (users s) (globalHistory s) (redoStack s) = s.
Proof. by destruct s. Qed.
End ServerFacts.

Module BasicServerFacts.
Import BasicServer.

Lemma basic_on_undo_unfold sid s :
  on_undo sid s =
  let '(x, h) := pop (globalHistory s) in
  (Normal tt,
   State (users s) h (if truthy x then redoStack s ++ [x] else redoStack s),
   [Emit ToAll "sync:history" (PValue (VArr h))]).
Proof.
  unfold on_undo, globalHistory_pop, redoStack_push, set_globalHistory, set_redoStack.
  monad_unfold.
  destruct (pop (globalHistory s)) as [x h].
  by destruct (truthy x).
Qed.

Lemma basic_on_redo_unfold sid s :
  on_redo sid s =
  let '(x, r) := pop (redoStack s) in
  let h := if truthy x then globalHistory s ++ [x] else globalHistory s in
  (Normal tt, State (users s) h r, [Emit ToAll "sync:history" (PValue (VArr h))]).
Proof.
  unfold on_redo, redoStack_pop, globalHistory_push, set_globalHistory, set_redoStack.
  monad_unfold.
  destruct (pop (redoStack s)) as [x r].
  by destruct (truthy x).
Qed.

Lemma basic_on_draw_end_unfold sid stroke s :
  on_draw_end sid stroke s =
  (Normal tt, State (users s) (globalHistory s ++ [stroke]) [],
   [Emit (ToOthers sid) "draw:end" (PValue stroke)]).
Proof. reflexivity. Qed.

Lemma basic_on_clear_board_unfold sid s :
  on_clear_board sid s =
  (Normal tt, State (users s) [] [], [Emit ToAll "sync:history" (PValue (VArr []))]).
Proof. reflexivity. Qed.

Lemma basic_state_eta s : State (users s) (globalHistory s) (redoStack s) = s.
Proof. by destruct s. Qed.
End BasicServerFacts.

(** ** Undo requests *)

(** On the basic server an undo request with an empty History is answered
    with a [sync:history] broadcast: connection [b], which did not ask, is
    sent the snapshot, and the requester [a] is not sent [undo:empty]. *)
Lemma basic_undo_empty_broadcasts :
  let r := BasicServer.on_undo "a" BasicServer.initial in
  effects_of r = [Emit ToAll "sync:history" (PValue (VArr []))] ∧
  delivered "b" (effects_of r) ≠ [] ∧
  delivered "a" (effects_of r) ≠ [("undo:empty", PNone)].
Proof. repeat split; cbn; discriminate. Qed.

(** C1, as amended.  On both servers an undo request whose History ends in a
    truthy stroke (every object is one) removes that stroke from History,
    pushes it onto the Redo Stack and sends the new History snapshot to every
    connection.  With an empty History, the server with global undo/redo
    handling sends [undo:empty] to the requester only and changes nothing;
    the basic server changes nothing and sends the (empty) snapshot to every
    connection. *)
Theorem undo_request (sid : string) :
  (∀ s h x, Server.globalHistory s = h ++ [x] → truthy x = true →
     let r := Server.on_undo sid s in
     outcome r = Normal tt ∧
     state_after r = Server.State (Server.users s) h (Server.redoStack s ++ [x]) ∧
     ∀ c, delivered c (effects_of r) = [("sync:history", PValue (VArr h))]) ∧
  (∀ s, Server.globalHistory s = [] →
     let r := Server.on_undo sid s in
     outcome r = Normal tt ∧
     state_after r = s ∧
     effects_of r = [Emit (ToSocket sid) "undo:empty" PNone] ∧
     ∀ c, delivered c (effects_of r) =
          if String.eqb sid c then [("undo:empty", PNone)] else []) ∧
  (∀ s h x, BasicServer.globalHistory s = h ++ [x] → truthy x = true →
     let r := BasicServer.on_undo sid s in
     outcome r = Normal tt ∧
     state_after r =
       BasicServer.State (BasicServer.users s) h (BasicServer.redoStack s ++ [x]) ∧
     ∀ c, delivered c (effects_of r) = [("sync:history", PValue (VArr h))]) ∧
  (∀ s, BasicServer.globalHistory s = [] →
     let r := BasicServer.on_undo sid s in
     outcome r = Normal tt ∧
     state_after r = s ∧
     ∀ c, delivered c (effects_of r) = [("sync:history", PValue (VArr []))]).
Proof.
  split_and!.
  - intros s h x Hh Hx r. subst r.
    rewrite ServerFacts.on_undo_unfold, Hh, pop_snoc, Hx. done.
  - intros s Hh r. subst r. rewrite ServerFacts.on_undo_unfold, Hh. cbn.
    split_and!; [done| |done|].
    + rewrite <-Hh. apply ServerFacts.server_state_eta.
    + intros c. by destruct (String.eqb sid c).
  - intros s h x Hh Hx r. subst r.
    rewrite BasicServerFacts.basic_on_undo_unfold, Hh, pop_snoc, Hx. done.
  - intros s Hh r. subst r. rewrite BasicServerFacts.basic_on_undo_unfold, Hh. cbn.
    split_and!; [done| |done].
    rewrite <-Hh. apply BasicServerFacts.basic_state_eta.
Qed.

Lemma undo_request_witness :
  state_after (Server.on_undo "a" (Server.State ∅ [stroke1] [])) =
    Server.State ∅ [] [stroke1] ∧
  effects_of (Server.on_undo "a" Server.initial) =
    [Emit (ToSocket "a") "undo:empty" PNone] ∧
  state_after (BasicServer.on_undo "a" (BasicServer.State ∅ [stroke1] [])) =
    BasicServer.State ∅ [] [stroke1] ∧
  delivered "b" (effects_of (BasicServer.on_undo "a" BasicServer.initial)) =
    [("sync:history", PValue (VArr []))].
Proof.
  destruct (undo_request "a") as (Hpop & Hempty & Hpop' & Hempty').
  split_and!.
  - apply (Hpop (Server.State ∅ [stroke1] []) [] stroke1); reflexivity.
  - apply (Hempty Server.initial); reflexivity.
  - apply (Hpop' (BasicServer.State ∅ [stroke1] []) [] stroke1); reflexivity.
  - apply (Hempty' BasicServer.initial); reflexivity.
Defined.

(** ** Commits *)

(** On the basic server the sender of a [draw:end] is sent nothing back, and
    nobody is sent a [sync:history]. *)
Lemma basic_draw_end_not_to_sender :
  let r := BasicServer.on_draw_end "a" stroke1 BasicServer.initial in
  delivered "a" (effects_of r) = [] ∧
  delivered "b" (effects_of r) = [("draw:end", PValue stroke1)].
Proof. by split. Qed.

(** C2, as amended.  On both servers a [draw:end] appends the stroke to
    History (and empties the Redo Stack).  The server with global undo/redo
    handling then sends every connection, the sender included, the same
    stroke in a [draw:end] and, after it, a [sync:history] with the whole
    History; the basic server relays the stroke to every connection except the
    sender and sends no [sync:history]. *)
Theorem draw_end_commit (sid : string) (stroke : value) :
  (∀ s, let r := Server.on_draw_end sid stroke s in
     outcome r = Normal tt ∧
     Server.globalHistory (state_after r) = Server.globalHistory s ++ [stroke] ∧
     Server.redoStack (state_after r) = [] ∧
     Server.users (state_after r) = Server.users s ∧
     ∀ c, delivered c (effects_of r) =
          [("draw:end", PValue stroke);
           ("sync:history", PValue (VArr (Server.globalHistory s ++ [stroke])))]) ∧
  (∀ s, let r := BasicServer.on_draw_end sid stroke s in
     outcome r = Normal tt ∧
     BasicServer.globalHistory (state_after r) = BasicServer.globalHistory s ++ [stroke] ∧
     BasicServer.redoStack (state_after r) = [] ∧
     BasicServer.users (state_after r) = BasicServer.users s ∧
     ∀ c, delivered c (effects_of r) =
          if String.eqb sid c then [] else [("draw:end", PValue stroke)]).
Proof.
  split; intros s r; subst r.
  - by rewrite ServerFacts.on_draw_end_unfold.
  - rewrite BasicServerFacts.basic_on_draw_end_unfold. split_and!; [done..|].
    intros c. cbn. by destruct (String.eqb sid c).
Qed.

(** C3.  Every commit leaves the Redo Stack empty; so after an undo and a
    commit, a redo request finds nothing: the requester alone is sent
    [redo:empty], the state stays as the commit left it, and History is the
    History after the undo with the new stroke appended. *)
Theorem commit_clears_redo :
  (∀ sid stroke s,
     Server.redoStack (state_after (Server.on_draw_end sid stroke s)) = []) ∧
  (∀ a b c stroke s,
     let s1 := state_after (Server.on_undo a s) in
     let s2 := state_after (Server.on_draw_end b stroke s1) in
     let r := Server.on_redo c s2 in
     outcome r = Normal tt ∧
     effects_of r = [Emit (ToSocket c) "redo:empty" PNone] ∧
     (∀ d, delivered d (effects_of r) =
           if String.eqb c d then [("redo:empty", PNone)] else []) ∧
     state_after r = s2 ∧
     Server.globalHistory (state_after r) = Server.globalHistory s1 ++ [stroke]).
Proof.
  split; [done|].
  intros a b c stroke s s1 s2 r. subst r s2.
  rewrite ServerFacts.on_redo_unfold, ServerFacts.on_draw_end_unfold. cbn.
  split_and!; try done; intros d; by destruct (String.eqb c d).
Qed.

(** ** Undo followed by redo *)

Lemma undo_redo_truthy a b s h x :
  Server.globalHistory s = h ++ [x] → truthy x = true →
  state_after (Server.on_redo b (state_after (Server.on_undo a s))) = s.
Proof.
  intros Hh Hx.
  rewrite ServerFacts.on_undo_unfold, Hh, pop_snoc, Hx. cbn.
  rewrite ServerFacts.on_redo_unfold. cbn. rewrite pop_snoc, Hx. cbn.
  rewrite <-Hh. apply ServerFacts.server_state_eta.
Qed.

(** C5 at a History that ends in a falsy stroke.  A [draw:end] whose payload
    is [null] puts [null] in History; the undo that follows removes it but
    takes the branch for an empty History ([undo:empty]), so nothing reaches
    the Redo Stack and the redo finds nothing: History has lost the stroke. *)
Theorem undo_redo_falsy_stroke :
  let s1 := state_after (Server.on_draw_end "a" VNull Server.initial) in
  let r2 := Server.on_undo "a" s1 in
  let r3 := Server.on_redo "a" (state_after r2) in
  Server.globalHistory s1 = [VNull] ∧
  effects_of r2 = [Emit (ToSocket "a") "undo:empty" PNone] ∧
  effects_of r3 = [Emit (ToSocket "a") "redo:empty" PNone] ∧
  Server.globalHistory (state_after r3) = [] ∧
  Server.globalHistory (state_after r3) ≠ Server.globalHistory s1.
Proof. by split_and!. Qed.

(** ** Clearing the board *)

(** C9.  A [clear:board] empties History and the Redo Stack whatever they
    held, and every connection, the requester included, is sent exactly one
    message: [sync:history] with the empty sequence. *)
Theorem clear_board (sid : string) :
  (∀ s, let r := Server.on_clear_board sid s in
     outcome r = Normal tt ∧
     Server.globalHistory (state_after r) = [] ∧
     Server.redoStack (state_after r) = [] ∧
     ∀ c, delivered c (effects_of r) = [("sync:history", PValue (VArr []))]) ∧
  (∀ s, let r := BasicServer.on_clear_board sid s in
     outcome r = Normal tt ∧
     BasicServer.globalHistory (state_after r) = [] ∧
     BasicServer.redoStack (state_after r) = [] ∧
     ∀ c, delivered c (effects_of r) = [("sync:history", PValue (VArr []))]).
Proof. by split. Qed.

(** ** Live events *)

(** Where the process survives a live event it holds the state it held:
    [draw:start] and [draw:move] with any payload, [cursor:move] from a
    connection that is not in [users], and [cursor:move] with a position that
    is neither [undefined] nor [null].  A [cursor:move] with such a position
    from a connection in [users] ends the process. *)
Lemma live_events_process (sid : string) (data : value) (s : Server.state) :
  (ServerProcess.receive sid (Server.DrawStart data) (ServerProcess.Running s)).1 =
    ServerProcess.Running s ∧
  (ServerProcess.receive sid (Server.DrawMove data) (ServerProcess.Running s)).1 =
    ServerProcess.Running s ∧
  (ServerProcess.receive sid (Server.CursorMove data) (ServerProcess.Running s)).1 =
    match Server.users s !! sid with
    | Some _ => if nullish data then ServerProcess.Exited else ServerProcess.Running s
    | None => ServerProcess.Running s
    end.
Proof.
  split_and!; [by destruct s..|].
  unfold ServerProcess.receive. cbn [Server.handle fst].
  unfold Server.on_cursor_move, prop, emit. monad_unfold.
  destruct (Server.users s !! sid); [|done]. by destruct (nullish data).
Qed.

(** C10 at a cursor position that is [null].  A connection that has joined
    and committed a stroke sends [cursor:move] with the payload [null]: the
    handler passes its guard for a connection without a user and throws a
    [TypeError] when it reads [pos.x]; nothing catches it, the process ends,
    and History, which held the stroke, is lost with it. *)
Theorem cursor_move_null_position :
  let s1 := state_after (Server.on_connection "a" "Ada" "#e64c3c" Server.initial) in
  let s2 := state_after (Server.on_draw_end "a" stroke1 s1) in
  let p0 := ServerProcess.Running Server.initial in
  let p1 := (ServerProcess.receive "a" (Server.Connection "Ada" "#e64c3c") p0).1 in
  let p2 := (ServerProcess.receive "a" (Server.DrawEnd stroke1) p1).1 in
  let r3 := ServerProcess.receive "a" (Server.CursorMove VNull) p2 in
  p2 = ServerProcess.Running s2 ∧
  ServerProcess.stacks p2 = Some ([stroke1], []) ∧
  Server.on_cursor_move "a" VNull s2 = (Throw TypeError, s2, []) ∧
  r3 = (ServerProcess.Exited, []) ∧
  ServerProcess.stacks r3.1 = None ∧
  ServerProcess.stacks r3.1 ≠ ServerProcess.stacks p2.
Proof. by split_and!. Qed.

(** ** History as a function of the operation log *)

Lemma server_step_apply sid o s :
  (Server.globalHistory (state_after (Server.handle sid (ServerRun.event_of o) s)),
   Server.redoStack (state_after (Server.handle sid (ServerRun.event_of o) s))) =
  apply_op o (Server.globalHistory s, Server.redoStack s).
Proof.
  destruct o as [x| | |]; cbn [ServerRun.event_of Server.handle apply_op]; [done| | |done].
  - rewrite ServerFacts.on_undo_unfold, pop_spec.
    destruct (last (Server.globalHistory s)) as [x|]; [by destruct (truthy x)|done].
  - rewrite ServerFacts.on_redo_unfold, pop_spec.
    destruct (last (Server.redoStack s)) as [x|]; [by destruct (truthy x)|done].
Qed.

Lemma basic_step_apply sid o s :
  (BasicServer.globalHistory
     (state_after (BasicServer.handle sid (BasicServerRun.event_of o) s)),
   BasicServer.redoStack
     (state_after (BasicServer.handle sid (BasicServerRun.event_of o) s))) =
  apply_op o (BasicServer.globalHistory s, BasicServer.redoStack s).
Proof.
  destruct o as [x| | |];
    cbn [BasicServerRun.event_of BasicServer.handle apply_op]; [done| | |done].
  - rewrite BasicServerFacts.basic_on_undo_unfold, pop_spec.
    destruct (last (BasicServer.globalHistory s)) as [x|]; [by destruct (truthy x)|done].
  - rewrite BasicServerFacts.basic_on_redo_unfold, pop_spec.
    destruct (last (BasicServer.redoStack s)) as [x|]; [by destruct (truthy x)|done].
Qed.

Lemma server_run_foldl log s :
  let s' := (ServerRun.run log s).1 in
  (Server.globalHistory s', Server.redoStack s') =
  foldl (λ hr o, apply_op o hr) (Server.globalHistory s, Server.redoStack s) (log.*2).
Proof.
  revert s. induction log as [|[sid o] log IH]; intros s; [done|].
  cbn [ServerRun.run fmap list_fmap foldl snd].
  rewrite <-(server_step_apply sid).
  specialize (IH (state_after (Server.handle sid (ServerRun.event_of o) s))).
  destruct (ServerRun.run log _) as [s' es]. exact IH.
Qed.

Lemma basic_run_foldl log s :
  let s' := (BasicServerRun.run log s).1 in
  (BasicServer.globalHistory s', BasicServer.redoStack s') =
  foldl (λ hr o, apply_op o hr)
    (BasicServer.globalHistory s, BasicServer.redoStack s) (log.*2).
Proof.
  revert s. induction log as [|[sid o] log IH]; intros s; [done|].
  cbn [BasicServerRun.run fmap list_fmap foldl snd].
  rewrite <-(basic_step_apply sid).
  specialize (IH (state_after (BasicServer.handle sid (BasicServerRun.event_of o) s))).
  destruct (BasicServerRun.run log _) as [s' es]. exact IH.
Qed.

(** C4.  Two runs of one sequence of commit, undo, redo and clear operations,
    each from a state with empty History and Redo Stack, end with the same
    History, whichever connections request the operations and whoever is
    connected: on either server the final History is the first component of
    [replay] of the sequence. *)
Theorem history_determined_by_oplog (ops : list op) :
  (∀ log1 log2 s1 s2,
     log1.*2 = ops → log2.*2 = ops →
     Server.globalHistory s1 = [] → Server.redoStack s1 = [] →
     Server.globalHistory s2 = [] → Server.redoStack s2 = [] →
     Server.globalHistory (ServerRun.run log1 s1).1 =
       Server.globalHistory (ServerRun.run log2 s2).1 ∧
     Server.globalHistory (ServerRun.run log1 s1).1 = (replay ops).1) ∧
  (∀ log1 log2 s1 s2,
     log1.*2 = ops → log2.*2 = ops →
     BasicServer.globalHistory s1 = [] → BasicServer.redoStack s1 = [] →
     BasicServer.globalHistory s2 = [] → BasicServer.redoStack s2 = [] →
     BasicServer.globalHistory (BasicServerRun.run log1 s1).1 =
       BasicServer.globalHistory (BasicServerRun.run log2 s2).1 ∧
     BasicServer.globalHistory (BasicServerRun.run log1 s1).1 = (replay ops).1).
Proof.
  split; intros log1 log2 s1 s2 Hl1 Hl2 Hh1 Hr1 Hh2 Hr2.
  - pose proof (server_run_foldl log1 s1) as H1.
    pose proof (server_run_foldl log2 s2) as H2.
    cbn zeta in H1, H2. rewrite Hl1, Hh1, Hr1 in H1. rewrite Hl2, Hh2, Hr2 in H2.
    unfold replay. rewrite <-H1. split; [|done].
    by rewrite <-H1 in H2; inversion H2.
  - pose proof (basic_run_foldl log1 s1) as H1.
    pose proof (basic_run_foldl log2 s2) as H2.
    cbn zeta in H1, H2. rewrite Hl1, Hh1, Hr1 in H1. rewrite Hl2, Hh2, Hr2 in H2.
    unfold replay. rewrite <-H1. split; [|done].
    by rewrite <-H1 in H2; inversion H2.
Qed.

Lemma history_determined_by_oplog_witness :
  Server.globalHistory
    (ServerRun.run [("a", Commit stroke1); ("a", Commit stroke2); ("a", OpUndo);
                    ("a", OpUndo); ("a", OpRedo)] Server.initial).1 =
  Server.globalHistory
    (ServerRun.run [("b", Commit stroke1); ("c", Commit stroke2); ("c", OpUndo);
                    ("b", OpUndo); ("d", OpRedo)]
       (Server.State {["c" := Server.User "User4821" "#F28B30"]} [] [])).1 ∧
  BasicServer.globalHistory
    (BasicServerRun.run [("a", Commit stroke1); ("a", Commit stroke2); ("a", OpUndo);
                         ("a", OpUndo); ("a", OpRedo)] BasicServer.initial).1 =
  BasicServer.globalHistory
    (BasicServerRun.run [("b", Commit stroke1); ("c", Commit stroke2); ("c", OpUndo);
                         ("b", OpUndo); ("d", OpRedo)]
       (BasicServer.State {["c" := BasicServer.User (VStr "Ada") "#10A37F"]} [] [])).1.
Proof.
  destruct (history_determined_by_oplog
              [Commit stroke1; Commit stroke2; OpUndo; OpUndo; OpRedo])
    as [Hserver Hbasic].
  split.
  - apply Hserver; reflexivity.
  - apply Hbasic; reflexivity.
Defined.

(** ** History entries *)

Lemma apply_op_shape o h r :
  let h' := (apply_op o (h, r)).1 in
  (∃ x, h' = h ++ [x]) ∨ h' = removelast h ∨ h' = h ∨ h' = [].
Proof.
  destruct o as [x| | |]; cbn.
  - left. by exists x.
  - destruct (last h) as [x|]; [|by auto]. destruct (truthy x); by auto.
  - destruct (last r) as [x|]; [|by auto]. destruct (truthy x); [left; by exists x|by auto].
  - by auto.
Qed.

Lemma apply_op_NoDup o h r :
  match o with Commit x => x ∉ h | _ => True end →
  NoDup (h ++ r) →
  NoDup ((apply_op o (h, r)).1 ++ (apply_op o (h, r)).2).
Proof.
  intros Hfresh Hnd. destruct o as [x| | |]; cbn.
  - rewrite app_nil_r. apply NoDup_app. split_and!.
    + by apply NoDup_app in Hnd as (? & _ & _).
    + intros y Hy ->%list_elem_of_singleton. done.
    + apply NoDup_singleton.
  - destruct (list_nil_or_snoc h) as [->|(l & x & ->)]; [done|].
    rewrite last_snoc, removelast_last.
    assert (NoDup (x :: l ++ r)) as [Hx Hlr]%NoDup_cons.
    { rewrite <-app_assoc in Hnd. cbn in Hnd. by rewrite <-Permutation_middle in Hnd. }
    destruct (truthy x); cbn; [|done].
    rewrite app_assoc. apply NoDup_app. split_and!; [done| |apply NoDup_singleton].
    intros y Hy ->%list_elem_of_singleton. done.
  - destruct (list_nil_or_snoc r) as [->|(l & x & ->)]; [done|].
    rewrite last_snoc, removelast_last.
    assert (NoDup (x :: h ++ l)) as [Hx Hhl]%NoDup_cons.
    { rewrite app_assoc in Hnd. by rewrite <-Permutation_cons_append in Hnd. }
    destruct (truthy x); cbn; [|done].
    rewrite <-app_assoc. cbn. rewrite <-Permutation_middle. by apply NoDup_cons.
  - constructor.
Qed.

Lemma server_run_NoDup log s :
  ServerRun.fresh_commits log s →
  NoDup (Server.globalHistory s ++ Server.redoStack s) →
  NoDup (Server.globalHistory (ServerRun.run log s).1 ++
         Server.redoStack (ServerRun.run log s).1).
Proof.
  revert s. induction log as [|[sid o] log IH]; intros s Hfresh Hnd; [done|].
  destruct Hfresh as [Ho Hfresh]. cbn [ServerRun.run].
  specialize (IH _ Hfresh).
  destruct (ServerRun.run log _) as [s' es]. apply IH.
  pose proof (server_step_apply sid o s) as Hstep.
  pose proof (apply_op_NoDup o _ _ Ho Hnd) as Hnd'.
  rewrite <-Hstep in Hnd'. exact Hnd'.
Qed.

(** ** Numbers and indexing *)

Lemma number_lt_of_nat a b : number_lt (of_nat a) (of_nat b) = bool_decide (a < b)%nat.
Proof.
  unfold number_lt, of_nat, Qle_bool, inject_Z. cbn.
  case_bool_decide;
    match goal with |- negb (?x <=? ?y)%Z = _ => destruct (Z.leb_spec x y) end; cbn;
    first [done | exfalso; lia].
Qed.

Lemma number_lt_pred_of_nat a b :
  number_lt (of_nat a) (number_pred (of_nat b)) = bool_decide (S a < b)%nat.
Proof.
  unfold number_lt, number_pred, of_nat, Qle_bool, Qminus, Qplus, Qopp, inject_Z. cbn.
  case_bool_decide;
    match goal with |- negb (?x <=? ?y)%Z = _ => destruct (Z.leb_spec x y) end; cbn;
    first [done | exfalso; lia].
Qed.

Lemma field_array_length xs : field (VArr xs) "length" = VNum (of_nat (length xs)).
Proof. reflexivity. Qed.

Lemma elem_array_lookup xs i x : xs !! i = Some x → elem (VArr xs) i = x.
Proof. intros H. cbn. by rewrite H. Qed.

Lemma key_index_key i : key_index (index_key i) = Some i.
Proof.
  unfold key_index, index_key. rewrite NilEmpty.usu. cbn.
  by rewrite DecimalNat.Unsigned.of_to.
Qed.

Lemma string_get_lt i s c : String.get i s = Some c → (i < String.length s)%nat.
Proof.
  revert i. induction s as [|a s IH]; intros [|i]; cbn; try done; [lia|].
  intros H%IH. lia.
Qed.

Lemma assoc_in k fs : nullish (assoc k fs) = false → ∃ v, (k, v) ∈ fs.
Proof.
  induction fs as [|[k' v] fs IH]; cbn; [done|].
  destruct (String.eqb_spec k k') as [->|]; [intros _; exists v; by left|].
  intros [w Hw]%IH. exists w. by right.
Qed.

(** An index that holds an element uses up one of the indices that can. *)
Lemma extent_from_step pts i :
  nullish (elem pts i) = false → (extent_from (S i) pts < extent_from i pts)%nat.
Proof.
  destruct pts as [| | | |s|xs|fs]; cbn -[Nat.leb key_index]; try done.
  - destruct (String.get i s) as [c|] eqn:Hget; [|done].
    apply string_get_lt in Hget. lia.
  - destruct (xs !! i) as [x|] eqn:Hx; [|done].
    apply lookup_lt_Some in Hx. lia.
  - intros [v Hin]%assoc_in.
    assert (∀ gs : list (string * value),
      (length (List.filter (λ kv, match key_index kv.1 with
                                  | Some j => (S i <=? j)%nat
                                  | None => false
                                  end) gs)
       ≤ length (List.filter (λ kv, match key_index kv.1 with
                                    | Some j => (i <=? j)%nat
                                    | None => false
                                    end) gs))%nat) as Hmono.
    { induction gs as [|[k w] gs IH]; cbn -[Nat.leb key_index]; [lia|].
      destruct (key_index k) as [j|]; [|done].
      destruct (Nat.leb_spec (S i) j), (Nat.leb_spec i j); cbn -[Nat.leb key_index]; lia. }
    induction fs as [|[k w] fs IH]; [by apply elem_of_nil in Hin|].
    apply elem_of_cons in Hin as [[= Hk Hv]|Hin]; cbn -[Nat.leb key_index].
    + rewrite <-Hk, key_index_key.
      destruct (Nat.leb_spec (S i) i); [lia|]. rewrite Nat.leb_refl.
      cbn -[Nat.leb key_index]. apply Nat.lt_succ_r, Hmono.
    + specialize (IH Hin).
      destruct (key_index k) as [j|]; [|done].
      destruct (Nat.leb_spec (S i) j), (Nat.leb_spec i j); cbn -[Nat.leb key_index]; lia.
Qed.

(** ** The smoothing renderer *)

Section Renderer.
Variable css_color : value → option string.
Variable string_to_number : string → number.
Variable array_to_number : list value → number.
Variable js_add : value → value → value.
Variable js_half : value → value.

Local Abbreviation to_number := (to_number string_to_number array_to_number).
Local Abbreviation curve_to := (curve_to js_add js_half).
Local Abbreviation curves := (curves string_to_number array_to_number js_add js_half).
Local Abbreviation _drawSmooth :=
  (_drawSmooth css_color string_to_number array_to_number js_add js_half).
Local Abbreviation assigned_style := (assigned_style css_color).
Local Abbreviation assigned_width := (assigned_width string_to_number array_to_number).
Local Abbreviation mid := (mid js_add js_half).
Local Abbreviation curve_through := (curve_through js_add js_half).
Local Abbreviation smooth_path := (smooth_path js_add js_half).
Local Abbreviation curve_segment := (curve_segment js_add js_half).
Local Abbreviation curve_segments :=
  (curve_segments string_to_number array_to_number js_add js_half).
Local Abbreviation outline := (outline string_to_number array_to_number js_add js_half).
Local Abbreviation draws := (draws string_to_number array_to_number).
Local Abbreviation drawn :=
  (drawn css_color string_to_number array_to_number js_add js_half).

Lemma with_path_id c : with_path (path c) c = c.
Proof. by destruct c. Qed.

Lemma truthy_not_nullish v : truthy v = true → nullish v = false.
Proof. by destruct v. Qed.

Lemma curve_to_eq pts i c :
  curve_to pts i c =
  match curve_segment pts i with
  | Normal sg => (Normal tt, with_path (path c ++ [sg]) c, [])
  | Throw e => (Throw e, c, [])
  end.
Proof.
  unfold curve_to, curve_segment, quadraticCurveTo, set_path, prop. monad_unfold.
  destruct (nullish (elem pts i)); [done|].
  by destruct (nullish (elem pts (i + 1))).
Qed.

Lemma curves_eq fuel pts i c :
  nullish pts = false →
  curves fuel pts i c =
  (let '(r, sgs) := curve_segments fuel pts i in (r, with_path (path c ++ sgs) c, [])).
Proof.
  intros Hpts. revert i c. induction fuel as [|fuel IH]; intros i c.
  - cbn. by rewrite app_nil_r, with_path_id.
  - cbn [curves curve_segments]. unfold prop. rewrite Hpts. monad_unfold.
    destruct (number_lt _ _); [|cbn [app]; by rewrite app_nil_r, with_path_id].
    rewrite curve_to_eq.
    destruct (curve_segment pts i) as [sg|e]; [|cbn [app]; by rewrite app_nil_r, with_path_id].
    rewrite IH. destruct (curve_segments fuel pts (S i)) as [r sgs]. cbn.
    by rewrite <-app_assoc.
Qed.

Lemma _drawSmooth_eq pts color size c :
  _drawSmooth pts color size c =
  if draws pts then ((outline pts).1, drawn pts color size c, [])
  else (Normal tt, c, []).
Proof.
  unfold _drawSmooth, draws, drawn, outline.
  destruct (truthy pts) eqn:Hpts; [|done].
  pose proof (truthy_not_nullish _ Hpts) as Hnn.
  cbn [negb andb].
  replace (prop pts "length") with (Normal (field pts "length"))
    by (unfold prop; by rewrite Hnn).
  monad_unfold.
  destruct (number_lt _ _); [done|]. cbn [negb].
  unfold set_strokeStyle, set_lineWidth, set_lineJoin, set_lineCap, beginPath,
    moveTo, stroke, set_path, set_painted, prop.
  monad_unfold. cbn [strokeStyle lineWidth lineCap lineJoin path painted app].
  destruct (nullish (elem pts 0)); [by rewrite app_nil_r|].
  rewrite curves_eq by done.
  destruct (curve_segments _ _ _) as [[[]|e] sgs]; cbn; [done|].
  by rewrite app_nil_r.
Qed.

(** The loop never runs out of fuel: any number of tests above the extent of
    the value gives the same segments and the same completion. *)
Lemma curve_segments_fuel fuel1 fuel2 pts i :
  (extent_from i pts < fuel1)%nat → (extent_from i pts < fuel2)%nat →
  curve_segments fuel1 pts i = curve_segments fuel2 pts i.
Proof.
  revert fuel2 i. induction fuel1 as [|fuel1 IH]; intros [|fuel2] i H1 H2; try lia.
  cbn [curve_segments]. destruct (number_lt _ _); [|done].
  unfold curve_segment. destruct (nullish (elem pts i)) eqn:Hi; [done|].
  destruct (nullish (elem pts (i + 1))); [done|]. cbn [orb].
  apply extent_from_step in Hi. by rewrite (IH fuel2 (S i)) by lia.
Qed.

Lemma curves_fuel fuel pts c :
  nullish pts = false → (extent_from 1 pts < fuel)%nat →
  curves fuel pts 1 c = curves (S (extent_from 1 pts)) pts 1 c.
Proof.
  intros Hpts Hfuel. rewrite !curves_eq by done.
  by rewrite (curve_segments_fuel fuel (S (extent_from 1 pts))) by lia.
Qed.

(** On an array of points the loop yields the curve of the specification. *)
Lemma curve_segments_array fuel ps i :
  Forall (λ p, nullish p = false) ps →
  (length ps - i < fuel)%nat →
  curve_segments fuel (VArr ps) i = (Normal tt, curve_through (drop i ps)).
Proof.
  intros Hps. revert i. induction fuel as [|fuel IH]; intros i Hfuel; [lia|].
  cbn [curve_segments]. rewrite field_array_length. cbn [to_number].
  rewrite number_lt_pred_of_nat. case_bool_decide as Hi.
  - destruct (lookup_lt_is_Some_2 ps i) as [p Hp]; [lia|].
    destruct (lookup_lt_is_Some_2 ps (S i)) as [q Hq]; [lia|].
    unfold curve_segment.
    rewrite Nat.add_1_r, (elem_array_lookup _ _ _ Hp), (elem_array_lookup _ _ _ Hq).
    rewrite (Forall_lookup_1 _ _ _ _ Hps Hp), (Forall_lookup_1 _ _ _ _ Hps Hq).
    cbn [orb]. rewrite IH by lia.
    rewrite (drop_S _ _ _ Hp), (drop_S _ _ _ Hq). done.
  - pose proof (length_drop ps i) as Hlen.
    destruct (drop i ps) as [|p [|q r]]; cbn in Hlen; [done..|lia].
Qed.

Lemma outline_array ps :
  (2 ≤ length ps)%nat → Forall (λ p, nullish p = false) ps →
  outline (VArr ps) = (Normal tt, smooth_path ps).
Proof.
  intros Hlen Hps. unfold outline. destruct ps as [|p0 ps']; [cbn in Hlen; lia|].
  rewrite (elem_array_lookup (p0 :: ps') 0 p0) by done.
  rewrite (Forall_inv Hps). rewrite curve_segments_array by (cbn; first [done|lia]).
  done.
Qed.

Lemma curve_through_lookup ps i p q :
  ps !! i = Some p → ps !! S i = Some q →
  curve_through ps !! i =
  Some (QuadraticCurveTo (field p "x") (field p "y")
          (mid (field p "x") (field q "x")) (mid (field p "y") (field q "y"))).
Proof.
  revert i. induction ps as [|a [|b ps] IH]; intros i Hp Hq; [done| |].
  - by destruct i.
  - destruct i as [|i]; [by injection Hp as ->; injection Hq as ->|].
    cbn [curve_through lookup list_lookup]. by apply IH.
Qed.

Lemma curve_through_length ps : length (curve_through ps) = (length ps - 1)%nat.
Proof.
  induction ps as [|a [|b ps] IH]; [done..|].
  change (curve_through (a :: b :: ps)) with
    (QuadraticCurveTo (field a "x") (field a "y")
       (mid (field a "x") (field b "x")) (mid (field a "y") (field b "y"))
     :: curve_through (b :: ps)).
  cbn [length] in *. rewrite IH. lia.
Qed.

Lemma _drawSmooth_falsy pts color size c :
  truthy pts = false → _drawSmooth pts color size c = (Normal tt, c, []).
Proof. intros Hpts. rewrite _drawSmooth_eq. unfold draws. by rewrite Hpts. Qed.

Lemma _drawSmooth_short ps color size c :
  (length ps < 2)%nat → _drawSmooth (VArr ps) color size c = (Normal tt, c, []).
Proof.
  intros Hlen. rewrite _drawSmooth_eq. unfold draws.
  rewrite field_array_length. cbn [to_number truthy andb].
  rewrite number_lt_of_nat. by rewrite bool_decide_true by lia.
Qed.

Lemma _drawSmooth_points ps color size c :
  (2 ≤ length ps)%nat → Forall (λ p, nullish p = false) ps →
  let style := assigned_style color (strokeStyle c) in
  let width := assigned_width size (lineWidth c) in
  _drawSmooth (VArr ps) color size c =
  (Normal tt,
   Context style width "round" "round" (smooth_path ps)
     (painted c ++ [Paint style width "round" "round" (smooth_path ps)]),
   []).
Proof.
  intros Hlen Hps. rewrite _drawSmooth_eq. unfold draws, drawn.
  rewrite field_array_length. cbn [to_number truthy andb].
  rewrite number_lt_of_nat, bool_decide_false by lia. cbn [negb].
  by rewrite outline_array.
Qed.

Lemma has_curve_smooth_path style width ps :
  has_curve (Paint style width "round" "round" (smooth_path ps)) =
  bool_decide (3 ≤ length ps)%nat.
Proof.
  unfold has_curve. cbn [paint_path].
  destruct ps as [|p0 [|p1 [|p2 ps]]]; cbn; try done.
Qed.

End Renderer.



(** ** The board *)

Section Board.
Variable css_color : value → option string.
Variable string_to_number : string → number.
Variable array_to_number : list value → number.
Variable js_add : value → value → value.
Variable js_half : value → value.
Variable to_string : value → string.
Variable inherited : string → bool.

Local Abbreviation _drawSmooth :=
  (_drawSmooth css_color string_to_number array_to_number js_add js_half).
Local Abbreviation assigned_style := (assigned_style css_color).
Local Abbreviation assigned_width := (assigned_width string_to_number array_to_number).
Local Abbreviation smooth_path := (smooth_path js_add js_half).
Local Abbreviation outline := (outline string_to_number array_to_number js_add js_half).
Local Abbreviation draws := (draws string_to_number array_to_number).
Local Abbreviation repaint :=
  (repaint css_color string_to_number array_to_number js_add js_half).
Local Abbreviation syncHistory :=
  (syncHistory css_color string_to_number array_to_number js_add js_half).
Local Abbreviation commitRemoteStroke :=
  (commitRemoteStroke css_color string_to_number array_to_number js_add js_half
     to_string inherited).
Local Abbreviation _end :=
  (_end css_color string_to_number array_to_number js_add js_half).
Local Abbreviation styled_stroke :=
  (styled_stroke css_color string_to_number array_to_number).
Local Abbreviation stroke_paints_on :=
  (stroke_paints_on css_color string_to_number array_to_number js_add js_half).
Local Abbreviation stroke_paints :=
  (stroke_paints css_color string_to_number array_to_number js_add js_half).
Local Abbreviation paint_stroke :=
  (paint_stroke css_color string_to_number array_to_number js_add js_half).

Lemma with_painted_id c : with_painted (painted c) c = c.
Proof. by destruct c. Qed.

Lemma overlay_none c : overlay None [] c = c.
Proof. unfold overlay. by rewrite app_nil_r, with_painted_id. Qed.

Lemma overlay_overlay f1 ps1 f2 ps2 c :
  overlay f2 ps2 (overlay f1 ps1 c) =
  overlay (match f2 with Some _ => f2 | None => f1 end) (ps1 ++ ps2) c.
Proof.
  destruct f2 as [[[??]?]|], f1 as [[[??]?]|]; cbn; by rewrite app_assoc.
Qed.

Lemma overlay_cleared f ps c :
  overlay f ps (with_painted [] (overlay f ps (with_painted [] c))) =
  overlay f ps (with_painted [] c).
Proof. by destruct f as [[[??]?]|]. Qed.

(** A call of [_drawSmooth] sends nothing. *)
Lemma _drawSmooth_result pts color size c :
  ∃ r c', _drawSmooth pts color size c = (r, c', []).
Proof. rewrite _drawSmooth_eq. destruct (draws pts); eauto. Qed.

(** A colour and a size the context accepts replace whatever it held. *)
Lemma assigned_accepted s style style' width width' :
  styled_stroke s = true →
  assigned_style (field s "color") style = assigned_style (field s "color") style' ∧
  assigned_width (field s "size") width = assigned_width (field s "size") width'.
Proof.
  unfold styled_stroke, assigned_style, assigned_width.
  destruct (css_color _); [|done].
  destruct (to_number _ _ _) as [| | |q]; try done. by destruct (Qle_bool q 0).
Qed.

(** When the context accepts the stroke's colour and size, painting the
    stroke overwrites or keeps, whatever the context. *)
Lemma _drawSmooth_overlay s :
  styled_stroke s = true →
  ∃ r f ps, ∀ c,
    _drawSmooth (field s "points") (field s "color") (field s "size") c =
    (r, overlay f ps c, []).
Proof.
  intros Hs. destruct (draws (field s "points")) eqn:Hd.
  - destruct (outline (field s "points")) as [r sgs] eqn:Ho.
    set (style := assigned_style (field s "color") VUndefined).
    set (width := assigned_width (field s "size") VUndefined).
    exists r, (Some (style, width, sgs)),
      (match r with Normal _ => [Paint style width "round" "round" sgs] | Throw _ => [] end).
    intros c. rewrite _drawSmooth_eq, Hd. unfold drawn. rewrite Ho. cbn zeta.
    destruct (assigned_accepted s (strokeStyle c) VUndefined (lineWidth c) VUndefined Hs)
      as [-> ->].
    done.
  - exists (Normal tt), None, []. intros c.
    by rewrite _drawSmooth_eq, Hd, overlay_none.
Qed.

Lemma with_hctx_id b : with_hctx (hctx b) b = b.
Proof. by destruct b. Qed.

(** [repaint] touches the history layer only, and sends nothing. *)
Lemma repaint_result l : ∀ b, ∃ r c, repaint l b = (r, with_hctx c b, []).
Proof.
  induction l as [|s l IH]; intros b.
  - exists (Normal tt), (hctx b). by rewrite with_hctx_id.
  - cbn [repaint]. unfold prop, on_hctx. destruct (nullish s) eqn:Hs; monad_unfold.
    + exists (Throw TypeError), (hctx b). by rewrite with_hctx_id.
    + destruct (_drawSmooth_result (field s "points") (field s "color") (field s "size")
                  (hctx b)) as (r1 & c1 & ->).
      destruct r1 as [[]|e]; [|by exists (Throw e), c1].
      destruct (IH (with_hctx c1 b)) as (r2 & c2 & ->). by exists r2, c2.
Qed.

Lemma repaint_overlay l :
  Forall (λ s, styled_stroke s = true) l →
  ∃ r f ps, ∀ b, repaint l b = (r, with_hctx (overlay f ps (hctx b)) b, []).
Proof.
  induction 1 as [|s l Hstyled _ (r2 & f2 & ps2 & IH)].
  - exists (Normal tt), None, []. intros b. by rewrite overlay_none, with_hctx_id.
  - destruct (nullish s) eqn:Hs.
    + exists (Throw TypeError), None, []. intros b.
      cbn [repaint]. unfold prop. rewrite Hs. monad_unfold.
      by rewrite overlay_none, with_hctx_id.
    + destruct (_drawSmooth_overlay s Hstyled) as (r1 & f1 & ps1 & Hdraw).
      destruct r1 as [[]|e].
      * exists r2, (match f2 with Some _ => f2 | None => f1 end), (ps1 ++ ps2).
        intros b. cbn [repaint]. unfold prop, on_hctx. rewrite Hs. monad_unfold.
        rewrite Hdraw, IH. cbn [hctx with_hctx]. by rewrite overlay_overlay.
      * exists (Throw e), f1, ps1.
        intros b. cbn [repaint]. unfold prop, on_hctx. rewrite Hs. monad_unfold.
        by rewrite Hdraw.
Qed.

Lemma syncHistory_unfold history b :
  syncHistory history b =
  match repaint (snapshot_of history)
          (with_hctx (with_painted [] (hctx b)) (with_strokes (snapshot_of history) b))
  with
  | (Normal _, b', es) => (Normal tt, clear_previews b', es ++ [])
  | (Throw e, b', es) => (Throw e, b', es)
  end.
Proof.
  unfold syncHistory, set_strokes, on_hctx, on_rctx, on_lctx, clearRect, set_painted.
  monad_unfold. fold (snapshot_of history).
  change (strokes (with_hctx ?c (with_strokes ?l b))) with l.
  destruct (repaint _ _) as [[[[]|e] b'] es]; [|done].
  cbn [app]. rewrite !app_nil_r. reflexivity.
Qed.

(** Whatever it is given and however it completes, [syncHistory] leaves the
    snapshot in the mirror and sends nothing. *)
Lemma syncHistory_strokes history b :
  strokes (state_after (syncHistory history b)) = snapshot_of history ∧
  effects_of (syncHistory history b) = [].
Proof.
  rewrite syncHistory_unfold.
  destruct (repaint_result (snapshot_of history)
              (with_hctx (with_painted [] (hctx b)) (with_strokes (snapshot_of history) b)))
    as (r & c & ->).
  by destruct r as [[]|e].
Qed.

Lemma syncHistory_overlay history :
  Forall (λ s, styled_stroke s = true) (snapshot_of history) →
  ∃ r f ps, ∀ b,
    syncHistory history b =
    (r,
     (match r with Normal _ => clear_previews | Throw _ => id end)
       (with_hctx (overlay f ps (with_painted [] (hctx b)))
          (with_strokes (snapshot_of history) b)),
     []).
Proof.
  intros Hstyled.
  destruct (repaint_overlay (snapshot_of history) Hstyled) as (r & f & ps & Hrep).
  exists r, f, ps. intros b. rewrite syncHistory_unfold, Hrep.
  by destruct r as [[]|e].
Qed.

Lemma syncHistory_idempotent history b :
  Forall (λ s, styled_stroke s = true) (snapshot_of history) →
  syncHistory history (state_after (syncHistory history b)) = syncHistory history b.
Proof.
  intros Hstyled.
  destruct (syncHistory_overlay history Hstyled) as (r & f & ps & Hsync).
  rewrite !Hsync. cbn [state_after fst snd]. f_equal. f_equal.
  destruct r as [[]|e]; destruct b; cbn; by rewrite overlay_cleared.
Qed.

(** *** What a stroke paints *)

Lemma stroke_paints_on_styled c s :
  styled_stroke s = true → stroke_paints_on c s = stroke_paints s.
Proof.
  intros Hs. unfold stroke_paints, stroke_paints_on.
  destruct (field s "points") as [| | | | |ps|]; try done.
  destruct (2 <=? length ps)%nat; [|done].
  by destruct (assigned_accepted s (strokeStyle c) (strokeStyle fresh) (lineWidth c)
                 (lineWidth fresh) Hs) as [-> ->].
Qed.

Lemma painted_paint_stroke c s :
  painted (paint_stroke c s) = painted c ++ stroke_paints_on c s.
Proof.
  unfold paint_stroke, stroke_paints_on.
  destruct (field s "points") as [| | | | |ps|]; try by rewrite app_nil_r.
  destruct (2 <=? length ps)%nat; [done|by rewrite app_nil_r].
Qed.

Lemma _drawSmooth_stroke s c :
  well_formed_stroke s →
  _drawSmooth (field s "points") (field s "color") (field s "size") c =
  (Normal tt, paint_stroke c s, []).
Proof.
  intros [_ [Hpts|(ps & Hps & Hnn)]].
  - rewrite _drawSmooth_falsy by done. unfold paint_stroke.
    by destruct (field s "points").
  - unfold paint_stroke, stroke_paints_on. rewrite Hps.
    destruct (Nat.leb_spec 2 (length ps)) as [Hlen|Hlen].
    + by rewrite _drawSmooth_points.
    + by rewrite _drawSmooth_short.
Qed.

Lemma repaint_well_formed l :
  Forall well_formed_stroke l →
  ∀ b, repaint l b = (Normal tt, with_hctx (foldl paint_stroke (hctx b) l) b, []).
Proof.
  induction 1 as [|s l Hwf _ IH]; intros b.
  - cbn. by rewrite with_hctx_id.
  - cbn [repaint]. unfold prop, on_hctx. rewrite (proj1 Hwf). monad_unfold.
    rewrite _drawSmooth_stroke by done. by rewrite IH.
Qed.

Lemma painted_history_styled l :
  Forall (λ s, styled_stroke s = true) l →
  ∀ c, painted (foldl paint_stroke c l) = painted c ++ concat (stroke_paints <$> l).
Proof.
  induction 1 as [|s l Hs _ IH]; intros c; [by rewrite app_nil_r|].
  cbn [foldl fmap list_fmap concat]. rewrite IH, painted_paint_stroke.
  by rewrite stroke_paints_on_styled, app_assoc.
Qed.


(** *** The local mirror *)

Lemma commitRemoteStroke_strokes stroke b :
  truthy stroke = true →
  strokes (state_after (commitRemoteStroke stroke b)) = strokes b ++ [stroke].
Proof.
  intros Hs. unfold commitRemoteStroke, set_strokes, set_remoteStrokes, on_hctx,
    on_rctx, clearRect, set_painted, prop.
  rewrite Hs, (truthy_not_nullish _ Hs). cbn [negb]. monad_unfold.
  match goal with
  | |- context [_drawSmooth ?p ?c ?s ?x] =>
      destruct (_drawSmooth_result p c s x) as (r & c' & ->)
  end.
  destruct r as [[]|e]; [|done].
  by destruct (truthy (field stroke "id") && _).
Qed.

Lemma commitRemoteStroke_falsy stroke b :
  truthy stroke = false → commitRemoteStroke stroke b = (Normal tt, b, []).
Proof. intros Hs. unfold commitRemoteStroke. by rewrite Hs. Qed.

Lemma _end_strokes uuid b :
  isDrawing b = true →
  strokes (state_after (_end uuid b)) =
  strokes b ++ [VObj [("id", js_or (_localTempId b) (VStr uuid));
                      ("points", VArr (currentStroke b));
                      ("color", color b); ("size", size b)]].
Proof.
  intros Hd. unfold _end, set_strokes, set_isDrawing, set_currentStroke,
    set_localTempId, socket_emit, on_hctx, on_lctx, clearRect, set_painted, prop.
  monad_unfold. rewrite Hd. cbn [negb nullish].
  match goal with
  | |- context [_drawSmooth ?p ?c ?s ?x] =>
      destruct (_drawSmooth_result p c s x) as (r & c' & ->)
  end.
  by destruct r as [[]|e].
Qed.

(** C6, as amended.  Every operation leaves the strokes that stay in History
    as they were: History afterwards is History with one stroke appended, or
    without its last stroke, or unchanged, or empty.  The server does not
    look for duplicates; in the states reached from the empty state by logs
    in which every commit carries a stroke that is not in History at that
    moment, no stroke occurs twice in History.  The client appends every
    truthy stroke of a commit event to its local mirror (and the stroke it
    finishes itself), so the mirror stays free of duplicates when the stroke
    was not in it. *)
Theorem history_entries :
  (∀ sid o s,
     let h := Server.globalHistory s in
     let h' := Server.globalHistory
                 (state_after (Server.handle sid (ServerRun.event_of o) s)) in
     (∃ x, h' = h ++ [x]) ∨ h' = removelast h ∨ h' = h ∨ h' = []) ∧
  (∀ log,
     ServerRun.fresh_commits log Server.initial →
     NoDup (Server.globalHistory (ServerRun.run log Server.initial).1)) ∧
  (∀ stroke b,
     truthy stroke = true →
     strokes (state_after (commitRemoteStroke stroke b)) = strokes b ++ [stroke] ∧
     (NoDup (strokes b) → stroke ∉ strokes b →
      NoDup (strokes (state_after (commitRemoteStroke stroke b))))) ∧
  (∀ uuid b,
     isDrawing b = true →
     ∃ stroke,
       strokes (state_after (_end uuid b)) = strokes b ++ [stroke] ∧
       field stroke "points" = VArr (currentStroke b)).
Proof.
  split_and!.
  - intros sid o s h h'. subst h h'.
    pose proof (server_step_apply sid o s) as Hstep.
    pose proof (apply_op_shape o (Server.globalHistory s) (Server.redoStack s)) as Hshape.
    rewrite <-Hstep in Hshape. exact Hshape.
  - intros log Hfresh.
    pose proof (server_run_NoDup log Server.initial Hfresh) as Hnd.
    cbn [Server.initial Server.globalHistory Server.redoStack app] in Hnd.
    specialize (Hnd (NoDup_nil_2 (A:=value))). by apply NoDup_app in Hnd as (? & _ & _).
  - intros stroke b Hs. rewrite commitRemoteStroke_strokes by done.
    split; [done|]. intros Hnd Hnotin.
    apply NoDup_app. split_and!; [done| |apply NoDup_singleton].
    intros y Hy ->%list_elem_of_singleton. done.
  - intros uuid b Hd. eexists. split; [by apply _end_strokes|done].
Qed.
End Board.

(** ** Samples *)

Lemma history_entries_witness :
  NoDup (Server.globalHistory
           (ServerRun.run [("a", Commit stroke1); ("b", Commit stroke2);
                           ("a", OpUndo); ("b", OpRedo)] Server.initial).1) ∧
  strokes (state_after (Sample.commitRemoteStroke stroke1 board0)) = [stroke1] ∧
  NoDup (strokes (state_after (Sample.commitRemoteStroke stroke1 board0))) ∧
  (let b := state_after (Sample._start (point 0 0) "s1" board0) in
   ∃ stroke,
     strokes (state_after (Sample._end "s2" b)) = strokes b ++ [stroke] ∧
     field stroke "points" = VArr (currentStroke b)).
Proof.
  destruct (history_entries Sample.css_color Sample.string_to_number
              Sample.array_to_number exact_add exact_half Sample.to_string
              Sample.inherited)
    as (_ & Hserver & Hclient & Hend).
  split_and!.
  - apply Hserver. cbn. split_and!; try done.
    + apply not_elem_of_nil.
    + intros H%list_elem_of_singleton. discriminate H.
  - apply (Hclient stroke1 board0). reflexivity.
  - apply (Hclient stroke1 board0); [reflexivity|apply NoDup_nil_2|apply not_elem_of_nil].
  - apply Hend. reflexivity.
Defined.

(** A stroke committed twice is in History twice; and a client that finishes
    a stroke has it twice in its mirror once it has processed the [draw:end]
    the server with global undo/redo handling sends back to it. *)
Lemma duplicate_commit :
  (let h := Server.globalHistory
              (ServerRun.run [("a", Commit stroke1); ("a", Commit stroke1)]
                 Server.initial).1 in
   h = [stroke1; stroke1] ∧ ¬ NoDup h) ∧
  (let b1 := state_after (Sample._start (point 0 0) "s1" board0) in
   let b2 := state_after (Sample._move (point 4 2) 40 b1) in
   let r3 := Sample._end "s2" b2 in
   let stroke := stroke_of "s1" [point 0 0; point 4 2] in
   effects_of r3 = [Send "draw:end" stroke] ∧
   delivered "a" (effects_of (Server.on_draw_end "a" stroke Server.initial)) =
     [("draw:end", PValue stroke); ("sync:history", PValue (VArr [stroke]))] ∧
   strokes (state_after (Sample.commitRemoteStroke stroke (state_after r3))) =
     [stroke; stroke]).
Proof.
  split.
  - split; [reflexivity|].
    intros [Hin _]%NoDup_cons. apply Hin. by left.
  - by split_and!.
Qed.



(** * Further properties of the servers *)

(** ** Redo requests *)

(** X1.  On both servers a redo request whose Redo Stack ends in a truthy
    stroke moves that stroke to the end of History and sends the new History
    snapshot to every connection.  With an empty Redo Stack nothing changes:
    the server with global undo/redo handling tells the requester alone
    [redo:empty], the basic server sends everybody the unchanged snapshot. *)
Theorem redo_request (sid : string) :
  (∀ s r x, Server.redoStack s = r ++ [x] → truthy x = true →
     let res := Server.on_redo sid s in
     outcome res = Normal tt ∧
     state_after res = Server.State (Server.users s) (Server.globalHistory s ++ [x]) r ∧
     ∀ c, delivered c (effects_of res) =
          [("sync:history", PValue (VArr (Server.globalHistory s ++ [x])))]) ∧
  (∀ s, Server.redoStack s = [] →
     let res := Server.on_redo sid s in
     outcome res = Normal tt ∧
     state_after res = s ∧
     ∀ c, delivered c (effects_of res) =
          if String.eqb sid c then [("redo:empty", PNone)] else []) ∧
  (∀ s r x, BasicServer.redoStack s = r ++ [x] → truthy x = true →
     let res := BasicServer.on_redo sid s in
     outcome res = Normal tt ∧
     state_after res =
       BasicServer.State (BasicServer.users s) (BasicServer.globalHistory s ++ [x]) r ∧
     ∀ c, delivered c (effects_of res) =
          [("sync:history", PValue (VArr (BasicServer.globalHistory s ++ [x])))]) ∧
  (∀ s, BasicServer.redoStack s = [] →
     let res := BasicServer.on_redo sid s in
     outcome res = Normal tt ∧
     state_after res = s ∧
     ∀ c, delivered c (effects_of res) =
          [("sync:history", PValue (VArr (BasicServer.globalHistory s)))]).
Proof.
  split_and!.
  - intros s r x Hr Hx res. subst res.
    rewrite ServerFacts.on_redo_unfold, Hr, pop_snoc, Hx. done.
  - intros s Hr res. subst res. rewrite ServerFacts.on_redo_unfold, Hr. cbn.
    split_and!; [done| |].
    + rewrite <-Hr. apply ServerFacts.server_state_eta.
    + intros c. by destruct (String.eqb sid c).
  - intros s r x Hr Hx res. subst res.
    rewrite BasicServerFacts.basic_on_redo_unfold, Hr, pop_snoc, Hx. done.
  - intros s Hr res. subst res. rewrite BasicServerFacts.basic_on_redo_unfold, Hr. cbn.
    split_and!; [done| |done].
    rewrite <-Hr. apply BasicServerFacts.basic_state_eta.
Qed.

Lemma redo_request_witness :
  state_after (Server.on_redo "a" (Server.State ∅ [] [stroke1])) =
    Server.State ∅ [stroke1] [] ∧
  delivered "b" (effects_of (Server.on_redo "a" Server.initial)) = [] ∧
  state_after (BasicServer.on_redo "a" (BasicServer.State ∅ [] [stroke1])) =
    BasicServer.State ∅ [stroke1] [] ∧
  delivered "b" (effects_of (BasicServer.on_redo "a" BasicServer.initial)) =
    [("sync:history", PValue (VArr []))].
Proof.
  destruct (redo_request "a") as (Hpop & Hempty & Hpop' & Hempty').
  split_and!.
  - apply (Hpop (Server.State ∅ [] [stroke1]) [] stroke1); reflexivity.
  - apply (Hempty Server.initial); reflexivity.
  - apply (Hpop' (BasicServer.State ∅ [] [stroke1]) [] stroke1); reflexivity.
  - apply (Hempty' BasicServer.initial); reflexivity.
Defined.

(** ** What the Redo Stack holds *)

Lemma server_step_redo_truthy sid e s :
  Forall (λ x, truthy x = true) (Server.redoStack s) →
  Forall (λ x, truthy x = true) (Server.redoStack (state_after (Server.handle sid e s))).
Proof.
  intros Hr.
  destruct e as [n c|d|d|st|pos| | | |]; cbn [Server.handle]; try done.
  - by rewrite ServerFacts.on_cursor_move_state.
  - rewrite ServerFacts.on_undo_unfold.
    destruct (pop (Server.globalHistory s)) as [x h].
    destruct (truthy x) eqn:Hx; [|done]. cbn.
    apply Forall_app. split; [done|]. by apply Forall_singleton.
  - rewrite ServerFacts.on_redo_unfold.
    destruct (list_nil_or_snoc (Server.redoStack s)) as [Hnil|(r & x & Hsnoc)].
    + by rewrite Hnil.
    + rewrite Hsnoc in *. rewrite pop_snoc.
      apply Forall_app in Hr as [Hr _]. by destruct (truthy x).
Qed.

Lemma basic_step_redo_truthy sid e s :
  Forall (λ x, truthy x = true) (BasicServer.redoStack s) →
  Forall (λ x, truthy x = true)
    (BasicServer.redoStack (state_after (BasicServer.handle sid e s))).
Proof.
  intros Hr.
  destruct e as [|n|st| | | |]; cbn [BasicServer.handle]; try done.
  - unfold BasicServer.on_user_setName. monad_unfold.
    by destruct (BasicServer.users s !! sid).
  - rewrite BasicServerFacts.basic_on_undo_unfold.
    destruct (pop (BasicServer.globalHistory s)) as [x h].
    destruct (truthy x) eqn:Hx; [|done]. cbn.
    apply Forall_app. split; [done|]. by apply Forall_singleton.
  - rewrite BasicServerFacts.basic_on_redo_unfold.
    destruct (list_nil_or_snoc (BasicServer.redoStack s)) as [Hnil|(r & x & Hsnoc)].
    + by rewrite Hnil.
    + rewrite Hsnoc in *. rewrite pop_snoc.
      apply Forall_app in Hr as [Hr _]. by destruct (truthy x).
Qed.

(** X2.  In every state either server passes through, whatever the events and
    their payloads were, the Redo Stack holds truthy strokes only (the undo
    handlers push nothing else).  So on the server with global undo/redo
    handling a redo request in such a state never drops a stroke: with a
    Redo Stack that is not empty it always moves its last stroke to History and
    broadcasts the snapshot. *)
Theorem redo_stack_truthy :
  (∀ s, ServerTrace.reachable s → Forall (λ x, truthy x = true) (Server.redoStack s)) ∧
  (∀ s, BasicServerTrace.reachable s →
     Forall (λ x, truthy x = true) (BasicServer.redoStack s)) ∧
  (∀ s sid r x, ServerTrace.reachable s → Server.redoStack s = r ++ [x] →
     let res := Server.on_redo sid s in
     Server.globalHistory (state_after res) = Server.globalHistory s ++ [x] ∧
     Server.redoStack (state_after res) = r ∧
     ∀ c, delivered c (effects_of res) =
          [("sync:history", PValue (VArr (Server.globalHistory s ++ [x])))]).
Proof.
  assert (∀ s, ServerTrace.reachable s →
            Forall (λ x, truthy x = true) (Server.redoStack s)) as Hinv.
  { induction 1 as [|s sid e _ IH]; [constructor|by apply server_step_redo_truthy]. }
  split_and!; [done| |].
  - induction 1 as [|s sid e _ IH]; [constructor|by apply basic_step_redo_truthy].
  - intros s sid r x Hreach Hr res. subst res.
    specialize (Hinv s Hreach). rewrite Hr in Hinv.
    apply Forall_app in Hinv as [_ Hx]. apply Forall_inv in Hx. cbn beta in Hx.
    rewrite ServerFacts.on_redo_unfold, Hr, pop_snoc, Hx. done.
Qed.

Lemma redo_stack_truthy_witness :
  let s := state_after (Server.handle "b" Server.Undo
             (state_after (Server.handle "a" (Server.DrawEnd stroke1) Server.initial))) in
  Forall (λ x, truthy x = true) (Server.redoStack s) ∧
  Server.globalHistory (state_after (Server.on_redo "c" s)) = [stroke1] ∧
  Forall (λ x, truthy x = true)
    (BasicServer.redoStack
       (state_after (BasicServer.handle "a" BasicServer.Undo BasicServer.initial))).
Proof.
  destruct redo_stack_truthy as (Hserver & Hbasic & Hredo).
  assert (ServerTrace.reachable
            (state_after (Server.handle "b" Server.Undo
               (state_after (Server.handle "a" (Server.DrawEnd stroke1) Server.initial)))))
    as Hreach by (do 2 apply ServerTrace.reachable_step; apply ServerTrace.reachable_initial).
  split_and!.
  - by apply Hserver.
  - by apply (Hredo _ "c" [] stroke1 Hreach).
  - apply Hbasic. apply BasicServerTrace.reachable_step, BasicServerTrace.reachable_initial.
Defined.

(** ** Undo and redo, many times *)

Lemma undos_S n a s :
  ServerTrace.undos (S n) a s = ServerTrace.undos n a (state_after (Server.on_undo a s)).
Proof. unfold ServerTrace.undos. by rewrite Nat.iter_succ_r. Qed.

Lemma redos_S n b s :
  ServerTrace.redos (S n) b s = ServerTrace.redos n b (state_after (Server.on_redo b s)).
Proof. unfold ServerTrace.redos. by rewrite Nat.iter_succ_r. Qed.

Lemma undos_truthy a l :
  ∀ s h, Server.globalHistory s = h ++ l → Forall (λ x, truthy x = true) l →
    ServerTrace.undos (length l) a s =
    Server.State (Server.users s) h (Server.redoStack s ++ reverse l).
Proof.
  induction l as [|x l IH] using rev_ind; intros s h Hh Hl.
  - cbn. rewrite !app_nil_r in *. rewrite <-Hh. symmetry. apply ServerFacts.server_state_eta.
  - apply Forall_app in Hl as [Hl Hx]. apply Forall_inv in Hx. cbn beta in Hx.
    rewrite length_app, Nat.add_1_r, undos_S.
    rewrite app_assoc in Hh.
    rewrite ServerFacts.on_undo_unfold, Hh, pop_snoc, Hx. cbn [state_after fst snd].
    rewrite (IH _ h) by done. cbn. by rewrite reverse_snoc, <-app_assoc.
Qed.

Lemma redos_truthy b l :
  ∀ s r, Server.redoStack s = r ++ reverse l → Forall (λ x, truthy x = true) l →
    ServerTrace.redos (length l) b s =
    Server.State (Server.users s) (Server.globalHistory s ++ l) r.
Proof.
  induction l as [|x l IH]; intros s r Hr Hl.
  - cbn. rewrite !app_nil_r in *. rewrite <-Hr. symmetry. apply ServerFacts.server_state_eta.
  - apply Forall_cons in Hl as [Hx Hl].
    rewrite reverse_cons, app_assoc in Hr.
    cbn [length]. rewrite redos_S.
    rewrite ServerFacts.on_redo_unfold, Hr, pop_snoc, Hx. cbn [state_after fst snd].
    rewrite (IH _ r) by done. cbn. by rewrite <-app_assoc.
Qed.

(** X3.  When the last [k] strokes of History are truthy, [k] undo requests
    in a row take exactly these strokes off History and leave them on the
    Redo Stack, the most recently undone last, and [k] redo requests after
    them restore the state the server had before the first undo, whichever
    connections ask. *)
Theorem undo_redo_many (a b : string) (s : Server.state) (h l : list value) :
  Server.globalHistory s = h ++ l →
  Forall (λ x, truthy x = true) l →
  let s1 := ServerTrace.undos (length l) a s in
  Server.globalHistory s1 = h ∧
  Server.redoStack s1 = Server.redoStack s ++ reverse l ∧
  ServerTrace.redos (length l) b s1 = s.
Proof.
  intros Hh Hl s1. subst s1. rewrite (undos_truthy a l s h) by done.
  split_and!; [done..|].
  rewrite (redos_truthy b l _ (Server.redoStack s)) by done.
  cbn. rewrite <-Hh. apply ServerFacts.server_state_eta.
Qed.

Lemma undo_redo_many_witness :
  let s := Server.State ∅ [stroke1; stroke2; stroke1] [stroke2] in
  Server.globalHistory (ServerTrace.undos 2 "a" s) = [stroke1] ∧
  Server.redoStack (ServerTrace.undos 2 "a" s) = [stroke2; stroke1; stroke2] ∧
  ServerTrace.redos 2 "b" (ServerTrace.undos 2 "a" s) = s.
Proof.
  apply (undo_redo_many "a" "b" (Server.State ∅ [stroke1; stroke2; stroke1] [stroke2])
           [stroke1] [stroke2; stroke1]).
  - reflexivity.
  - by repeat constructor.
Defined.

(** ** Snapshots *)

Ltac snapshots :=
  unfold snapshots_carry;
  repeat first [apply Forall_nil_2 | apply Forall_cons_2];
  try exact I;
  (split; intros Hev; first [discriminate Hev | done]).

(** X4.  Whatever the event and the state, every [sync:history] a handler of
    either server emits goes to all connections and carries History exactly
    as the handler leaves it, and the [init:history] of a connection carries
    it too: no handler ever sends a stale or partial snapshot. *)
Theorem snapshots_current (sid : string) :
  (∀ e s, let r := Server.handle sid e s in
     snapshots_carry (Server.globalHistory (state_after r)) (effects_of r)) ∧
  (∀ e s, let r := BasicServer.handle sid e s in
     snapshots_carry (BasicServer.globalHistory (state_after r)) (effects_of r)).
Proof.
  split; intros e s r; subst r.
  - destruct e as [n c|d|d|st|pos| | | |]; cbn [Server.handle].
    + snapshots.
    + snapshots.
    + snapshots.
    + rewrite ServerFacts.on_draw_end_unfold. snapshots.
    + unfold Server.on_cursor_move, prop. monad_unfold.
      destruct (Server.users s !! sid) as [u|]; [|snapshots].
      destruct (nullish pos); snapshots.
    + rewrite ServerFacts.on_undo_unfold.
      destruct (pop (Server.globalHistory s)) as [x h].
      destruct (truthy x); snapshots.
    + rewrite ServerFacts.on_redo_unfold.
      destruct (pop (Server.redoStack s)) as [x r].
      destruct (truthy x); snapshots.
    + rewrite ServerFacts.on_clear_board_unfold. snapshots.
    + snapshots.
  - destruct e as [|n|st| | | |]; cbn [BasicServer.handle].
    + snapshots.
    + unfold BasicServer.on_user_setName. monad_unfold.
      destruct (BasicServer.users s !! sid) as [u|]; snapshots.
    + rewrite BasicServerFacts.basic_on_draw_end_unfold. snapshots.
    + rewrite BasicServerFacts.basic_on_undo_unfold.
      destruct (pop (BasicServer.globalHistory s)) as [x h]. snapshots.
    + rewrite BasicServerFacts.basic_on_redo_unfold.
      destruct (pop (BasicServer.redoStack s)) as [x r]. snapshots.
    + rewrite BasicServerFacts.basic_on_clear_board_unfold. snapshots.
    + snapshots.
Qed.

(** ** Presence *)

(** X5.  A connection adds the joiner to [users] under the generated name and
    colour and leaves History and the Redo Stack alone; every connection is
    sent the new mapping, and the joiner, and nobody else, is sent
    [init:history] with the whole current History.  A disconnection removes
    the entry, leaves History and the Redo Stack alone and sends everybody the
    new mapping; after it, a join from a socket that was not connected before
    has left no trace in the state. *)
Theorem presence (sid name color : string) (s : Server.state) :
  let r := Server.on_connection sid name color s in
  (outcome r = Normal tt ∧
   Server.users (state_after r) = <[sid := Server.User name color]> (Server.users s) ∧
   Server.globalHistory (state_after r) = Server.globalHistory s ∧
   Server.redoStack (state_after r) = Server.redoStack s ∧
   ∀ c, delivered c (effects_of r) =
        ("users:update", PUsers (<[sid := Server.User name color]> (Server.users s)))
        :: (if String.eqb sid c
            then [("init:history", PValue (VArr (Server.globalHistory s)))]
            else [])) ∧
  (let r' := Server.on_disconnect sid s in
   outcome r' = Normal tt ∧
   Server.users (state_after r') = delete sid (Server.users s) ∧
   Server.globalHistory (state_after r') = Server.globalHistory s ∧
   Server.redoStack (state_after r') = Server.redoStack s ∧
   ∀ c, delivered c (effects_of r') =
        [("users:update", PUsers (delete sid (Server.users s)))]) ∧
  (Server.users s !! sid = None →
   state_after (Server.on_disconnect sid (state_after r)) = s).
Proof.
  cbn zeta. split_and!; try done.
  intros Hfresh.
  unfold Server.on_disconnect, Server.on_connection, Server.name_or, Server.set_users.
  monad_unfold. cbn [fst snd Server.users Server.globalHistory Server.redoStack].
  rewrite delete_insert_id by done. apply ServerFacts.server_state_eta.
Qed.

Lemma presence_witness :
  state_after
    (Server.on_disconnect "a"
       (state_after (Server.on_connection "a" "User1234" "#FFD700"
                       (Server.State ∅ [stroke1] [])))) =
  Server.State ∅ [stroke1] [].
Proof.
  apply (presence "a" "User1234" "#FFD700" (Server.State ∅ [stroke1] [])).
  reflexivity.
Defined.

(** ** Live events *)

(** X6.  [draw:start] and [draw:move] are relayed unchanged to every connection
    except their sender.  A [cursor:move] of a connection that is in [users]
    reaches every other connection as one [cursor:update] with the sender's
    id, name and colour and the [x] and [y] of the position; from a connection
    that is not in [users] nothing is sent; and when the position is
    [undefined] or [null] the handler throws a [TypeError] and nothing is
    sent. *)
Theorem live_events_routing (sid : string) (data : value) (s : Server.state) :
  (∀ c, delivered c (effects_of (Server.on_draw_start sid data s)) =
        if String.eqb sid c then [] else [("draw:start", PValue data)]) ∧
  (∀ c, delivered c (effects_of (Server.on_draw_move sid data s)) =
        if String.eqb sid c then [] else [("draw:move", PValue data)]) ∧
  (∀ u, Server.users s !! sid = Some u → nullish data = false →
     outcome (Server.on_cursor_move sid data s) = Normal tt ∧
     ∀ c, delivered c (effects_of (Server.on_cursor_move sid data s)) =
          if String.eqb sid c then []
          else [("cursor:update",
                 PValue (VObj [("id", VStr sid); ("name", VStr (Server.name u));
                               ("color", VStr (Server.color u));
                               ("x", field data "x"); ("y", field data "y")]))]) ∧
  (Server.users s !! sid = None →
     Server.on_cursor_move sid data s = (Normal tt, s, [])) ∧
  (∀ u, Server.users s !! sid = Some u → nullish data = true →
     Server.on_cursor_move sid data s = (Throw TypeError, s, [])).
Proof.
  split_and!.
  - intros c. cbn. by destruct (String.eqb sid c).
  - intros c. cbn. by destruct (String.eqb sid c).
  - intros u Hu Hdata. unfold Server.on_cursor_move, prop. monad_unfold.
    rewrite Hu, Hdata. split; [done|]. intros c. cbn. by destruct (String.eqb sid c).
  - intros Hu. unfold Server.on_cursor_move. monad_unfold. by rewrite Hu.
  - intros u Hu Hdata. unfold Server.on_cursor_move, prop. monad_unfold.
    by rewrite Hu, Hdata.
Qed.

Lemma live_events_routing_witness :
  let s := Server.State {["a" := Server.User "User1234" "#FFD700"]} [] [] in
  delivered "b" (effects_of (Server.on_cursor_move "a" (point 3 4) s)) =
    [("cursor:update",
      PValue (VObj [("id", VStr "a"); ("name", VStr "User1234");
                    ("color", VStr "#FFD700");
                    ("x", VNum (Fin (inject_Z 3))); ("y", VNum (Fin (inject_Z 4)))]))] ∧
  Server.on_cursor_move "b" (point 3 4) s = (Normal tt, s, []) ∧
  Server.on_cursor_move "a" VNull s = (Throw TypeError, s, []).
Proof.
  destruct (live_events_routing "a" (point 3 4)
              (Server.State {["a" := Server.User "User1234" "#FFD700"]} [] []))
    as (_ & _ & Hknown & _ & _).
  destruct (live_events_routing "b" (point 3 4)
              (Server.State {["a" := Server.User "User1234" "#FFD700"]} [] []))
    as (_ & _ & _ & Hunknown & _).
  destruct (live_events_routing "a" VNull
              (Server.State {["a" := Server.User "User1234" "#FFD700"]} [] []))
    as (_ & _ & _ & _ & Hnull).
  split_and!.
  - apply (Hknown (Server.User "User1234" "#FFD700")); reflexivity.
  - apply Hunknown. reflexivity.
  - apply (Hnull (Server.User "User1234" "#FFD700")); reflexivity.
Defined.

(** ** Names on the basic server *)

(** X7.  [user:setName] of a connection that is in [users] replaces the name of
    that connection alone (any value the client sends), keeps its colour and
    every other entry, leaves History and the Redo Stack alone and sends the
    new mapping to everybody.  From a connection that is not in [users] the
    handler throws a [TypeError]: nothing changes and nothing is sent. *)
Theorem set_name (sid : string) (name : value) (s : BasicServer.state) :
  (∀ u, BasicServer.users s !! sid = Some u →
     let r := BasicServer.on_user_setName sid name s in
     let users' := BasicServer.users (state_after r) in
     outcome r = Normal tt ∧
     users' !! sid = Some (BasicServer.User name (BasicServer.color u)) ∧
     (∀ c, c ≠ sid → users' !! c = BasicServer.users s !! c) ∧
     BasicServer.globalHistory (state_after r) = BasicServer.globalHistory s ∧
     BasicServer.redoStack (state_after r) = BasicServer.redoStack s ∧
     ∀ c, delivered c (effects_of r) = [("users:update", PUsers users')]) ∧
  (BasicServer.users s !! sid = None →
     BasicServer.on_user_setName sid name s = (Throw TypeError, s, [])).
Proof.
  split.
  - intros u Hu r users'. subst users' r.
    unfold BasicServer.on_user_setName. monad_unfold. rewrite Hu. cbn.
    split_and!; try done.
    + apply lookup_insert_eq.
    + intros c Hc. by apply lookup_insert_ne.
  - intros Hu. unfold BasicServer.on_user_setName. monad_unfold. by rewrite Hu.
Qed.

Lemma set_name_witness :
  let s := state_after (BasicServer.on_connection "a" BasicServer.initial) in
  BasicServer.users (state_after (BasicServer.on_user_setName "a" (VStr "Ada") s)) !! "a" =
    Some (BasicServer.User (VStr "Ada") "#10A37F") ∧
  BasicServer.on_user_setName "b" (VStr "Bob") s = (Throw TypeError, s, []).
Proof.
  destruct (set_name "a" (VStr "Ada")
              (state_after (BasicServer.on_connection "a" BasicServer.initial)))
    as [Hknown _].
  destruct (set_name "b" (VStr "Bob")
              (state_after (BasicServer.on_connection "a" BasicServer.initial)))
    as [_ Hunknown].
  split.
  - apply (Hknown (BasicServer.User (VStr "Anonymous") "#10A37F")). reflexivity.
  - apply Hunknown. reflexivity.
Defined.

(** * Further properties of the client *)

Section Pointer.
Variable css_color : value → option string.
Variable string_to_number : string → number.
Variable array_to_number : list value → number.
Variable js_add : value → value → value.
Variable js_half : value → value.
Variable to_string : value → string.
Variable inherited : string → bool.

Local Abbreviation _drawSmooth :=
  (_drawSmooth css_color string_to_number array_to_number js_add js_half).
Local Abbreviation _move :=
  (_move css_color string_to_number array_to_number js_add js_half).
Local Abbreviation _end :=
  (_end css_color string_to_number array_to_number js_add js_half).
Local Abbreviation commitRemoteStroke :=
  (commitRemoteStroke css_color string_to_number array_to_number js_add js_half
     to_string inherited).
Local Abbreviation syncHistory :=
  (syncHistory css_color string_to_number array_to_number js_add js_half).
Local Abbreviation assigned_style := (assigned_style css_color).
Local Abbreviation assigned_width := (assigned_width string_to_number array_to_number).
Local Abbreviation styled_stroke :=
  (styled_stroke css_color string_to_number array_to_number).
Local Abbreviation stroke_paints_on :=
  (stroke_paints_on css_color string_to_number array_to_number js_add js_half).
Local Abbreviation stroke_paints :=
  (stroke_paints css_color string_to_number array_to_number js_add js_half).
Local Abbreviation paint_stroke :=
  (paint_stroke css_color string_to_number array_to_number js_add js_half).
Local Abbreviation smooth_path := (smooth_path js_add js_half).
Local Abbreviation on_pointer :=
  (on_pointer css_color string_to_number array_to_number js_add js_half).
Local Abbreviation run_pointer :=
  (run_pointer css_color string_to_number array_to_number js_add js_half).

(** ** The throttle *)

(** [_move] while drawing, step by step. *)
Lemma _move_unfold p now b :
  isDrawing b = true →
  ∃ r live,
    _drawSmooth (VArr (currentStroke b ++ [p])) (color b) (size b)
      (with_painted [] (lctx b)) = (r, live, []) ∧
    _move p now b =
    match r with
    | Throw e =>
        (Throw e,
         Board (hctx b) (rctx b) live (color b) (size b) (strokes b)
           (currentStroke b ++ [p]) true (remoteStrokes b) (_localTempId b) (lastEmit b),
         [])
    | Normal _ =>
        if (30 <? now - lastEmit b)%Z then
          (Normal tt,
           Board (hctx b) (rctx b) live (color b) (size b) (strokes b)
             (currentStroke b ++ [p]) true (remoteStrokes b) (_localTempId b) now,
           [Send "draw:move"
              (VObj [("points", VArr [p]); ("color", color b); ("size", size b);
                     ("id", _localTempId b)])])
        else
          (Normal tt,
           Board (hctx b) (rctx b) live (color b) (size b) (strokes b)
             (currentStroke b ++ [p]) true (remoteStrokes b) (_localTempId b) (lastEmit b),
           [])
    end.
Proof.
  intros Hd.
  destruct (_drawSmooth_result css_color string_to_number array_to_number js_add js_half
              (VArr (currentStroke b ++ [p])) (color b) (size b)
              (with_painted [] (lctx b))) as (r & live & Hdraw).
  exists r, live. split; [done|]. unfold with_painted in Hdraw.
  unfold _move, socket_emit, set_currentStroke, set_lastEmit, on_lctx,
    clearRect, set_painted, push.
  monad_unfold. rewrite Hd. cbn -[_drawSmooth Z.ltb Z.eqb Z.sub].
  rewrite Hdraw. destruct r as [[]|e]; [|by rewrite Hd].
  cbn -[Z.ltb Z.eqb Z.sub].
  destruct (Z.eqb_spec (lastEmit b) 0) as [H0|H0];
    cbn -[Z.ltb Z.eqb Z.sub]; rewrite <-?H0, ?Hd;
    by destruct (30 <? now - lastEmit b)%Z.
Qed.

Lemma _move_idle p now b : isDrawing b = false → _move p now b = (Normal tt, b, []).
Proof. intros Hd. unfold _move. monad_unfold. by rewrite Hd. Qed.

Lemma on_mouse_move p now b :
  on_pointer (MouseMove p now) b =
  (let '(r, b', es) := _move p now b in (r, b', Send "cursor:move" p :: es)).
Proof.
  cbn [on_pointer]. unfold socket_emit. monad_unfold.
  by destruct (_move p now b) as [[r b'] es].
Qed.

Lemma mouse_move_throttled p now b :
  (now ≤ lastEmit b + 30)%Z →
  effects_of (on_pointer (MouseMove p now) b) = [Send "cursor:move" p] ∧
  lastEmit (state_after (on_pointer (MouseMove p now) b)) = lastEmit b.
Proof.
  intros Hnow. rewrite on_mouse_move.
  destruct (isDrawing b) eqn:Hd; [|by rewrite _move_idle].
  destruct (_move_unfold p now b Hd) as (r & live & _ & ->).
  destruct r as [[]|e]; [|done].
  destruct (Z.ltb_spec 30 (now - lastEmit b)); [lia|done].
Qed.

(** What [_drawSmooth] does with an array of points. *)
Lemma _drawSmooth_array ps color size c :
  Forall (λ p, nullish p = false) ps →
  ∃ c', _drawSmooth (VArr ps) color size c = (Normal tt, c', []) ∧
        painted c' =
        painted c ++ (if (2 <=? length ps)%nat
                      then [Paint (assigned_style color (strokeStyle c))
                              (assigned_width size (lineWidth c))
                              "round" "round" (smooth_path ps)]
                      else []).
Proof.
  intros Hps. destruct (Nat.leb_spec 2 (length ps)) as [Hlen|Hlen].
  - rewrite _drawSmooth_points by done. eauto.
  - rewrite _drawSmooth_short by done. exists c. by rewrite app_nil_r.
Qed.

(** X8.  Emission of [draw:move] is throttled and nothing else is.  Pointer
    moves whose time stamps are at most 30 ms after the last emission send
    their cursor positions, one [cursor:move] each, and no [draw:move], and
    do not move the time of the last emission, whatever the board.  A move
    later than that, while a stroke of points is in progress, sends the cursor
    position and then one [draw:move] with the new point and the stroke's id,
    and becomes the last emission.  Whenever it comes, a move while drawing
    appends its point to the stroke and leaves the live layer showing exactly
    the smoothed stroke so far, in the brush's colour and size where the
    context accepts them (and in the settings the live layer holds where it
    does not). *)
Theorem move_throttle (b : board) :
  (∀ l, Forall (λ m, (m.2 ≤ lastEmit b + 30)%Z) l →
     (run_pointer (moves l) b).2 = (λ m, Send "cursor:move" m.1) <$> l ∧
     lastEmit (run_pointer (moves l) b).1 = lastEmit b) ∧
  (∀ p now,
     isDrawing b = true →
     Forall (λ q, nullish q = false) (currentStroke b ++ [p]) →
     let r := on_pointer (MouseMove p now) b in
     outcome r = Normal tt ∧
     currentStroke (state_after r) = currentStroke b ++ [p] ∧
     painted (lctx (state_after r)) =
       (if (2 <=? length (currentStroke b ++ [p]))%nat
        then [Paint (assigned_style (color b) (strokeStyle (lctx b)))
                (assigned_width (size b) (lineWidth (lctx b))) "round" "round"
                (smooth_path (currentStroke b ++ [p]))]
        else []) ∧
     ((lastEmit b + 30 < now)%Z →
        effects_of r =
          [Send "cursor:move" p;
           Send "draw:move"
             (VObj [("points", VArr [p]); ("color", color b); ("size", size b);
                    ("id", _localTempId b)])] ∧
        lastEmit (state_after r) = now)).
Proof.
  split.
  - intros l. revert b. induction l as [|[p now] l IH]; intros b Hl; [done|].
    apply Forall_cons in Hl as [Hnow Hl]. cbn [snd] in Hnow.
    destruct (mouse_move_throttled p now b Hnow) as [Heff Hlast].
    cbn [moves fmap list_fmap run_pointer fst snd].
    specialize (IH (state_after (on_pointer (MouseMove p now) b))).
    rewrite Hlast in IH. specialize (IH Hl). unfold moves in IH.
    destruct (run_pointer _ _) as [b' out].
    cbn [fst snd] in *. destruct IH as [-> ->]. by rewrite Heff.
  - intros p now Hd Hps r. subst r. rewrite on_mouse_move.
    destruct (_move_unfold p now b Hd) as (r & live & Hdraw & ->).
    destruct (_drawSmooth_array (currentStroke b ++ [p]) (color b) (size b)
                (with_painted [] (lctx b)) Hps) as (c' & Hc' & Hpainted).
    rewrite Hdraw in Hc'. injection Hc' as -> ->.
    destruct (Z.ltb_spec 30 (now - lastEmit b)) as [Hlate|Hearly];
      (split_and!; [done..|]); intros Hnow; [done|lia].
Qed.

(** ** A stroke from pointer-down to pointer-up *)

Lemma run_pointer_app es1 es2 b :
  run_pointer (es1 ++ es2) b =
  ((run_pointer es2 (run_pointer es1 b).1).1,
   (run_pointer es1 b).2 ++ (run_pointer es2 (run_pointer es1 b).1).2).
Proof.
  revert b. induction es1 as [|e es1 IH]; intros b.
  - cbn. by destruct (run_pointer es2 b).
  - cbn [app run_pointer]. rewrite IH.
    destruct (run_pointer es1 _) as [b1 o1]. cbn [fst snd].
    destruct (run_pointer es2 b1) as [b2 o2]. cbn [fst snd].
    by rewrite app_assoc.
Qed.

Lemma run_moves_drawing l :
  ∀ b, isDrawing b = true →
    Forall (λ q, nullish q = false) (currentStroke b) →
    Forall (λ q, nullish q = false) (l.*1) →
    ∃ live t out,
      run_pointer (moves l) b =
      (Board (hctx b) (rctx b) live (color b) (size b) (strokes b)
         (currentStroke b ++ l.*1) true (remoteStrokes b) (_localTempId b) t, out) ∧
      Forall live_message out.
Proof.
  induction l as [|[p now] l IH]; intros b Hd Hcs Hl.
  - exists (lctx b), (lastEmit b), []. cbn. rewrite app_nil_r, <-Hd. by destruct b.
  - cbn [fmap list_fmap fst] in Hl. apply Forall_cons in Hl as [Hp Hl].
    assert (Forall (λ q, nullish q = false) (currentStroke b ++ [p])) as Hcs'.
    { apply Forall_app. split; [done|]. by apply Forall_singleton. }
    cbn [moves fmap list_fmap run_pointer fst snd].
    rewrite on_mouse_move.
    destruct (_move_unfold p now b Hd) as (r & live0 & Hdraw & ->).
    destruct (_drawSmooth_array (currentStroke b ++ [p]) (color b) (size b)
                (with_painted [] (lctx b)) Hcs') as (c' & Hc' & _).
    rewrite Hdraw in Hc'. injection Hc' as -> _.
    destruct (30 <? now - lastEmit b)%Z; cbn [state_after effects_of fst snd].
    + edestruct (IH (Board (hctx b) (rctx b) live0
                       (color b) (size b) (strokes b) (currentStroke b ++ [p]) true
                       (remoteStrokes b) (_localTempId b) now))
        as (live & t & out & Hrun & Hout); [done..|].
      unfold moves in Hrun. rewrite Hrun. cbn. rewrite <-app_assoc.
      eexists _, _, _. split; [done|].
      repeat (apply Forall_cons; split; [eexists; eauto|]). done.
    + edestruct (IH (Board (hctx b) (rctx b) live0
                       (color b) (size b) (strokes b) (currentStroke b ++ [p]) true
                       (remoteStrokes b) (_localTempId b) (lastEmit b)))
        as (live & t & out & Hrun & Hout); [done..|].
      unfold moves in Hrun. rewrite Hrun. cbn. rewrite <-app_assoc.
      eexists _, _, _. split; [done|].
      repeat (apply Forall_cons; split; [eexists; eauto|]). done.
Qed.

Lemma _end_unfold uuid b :
  isDrawing b = true →
  Forall (λ q, nullish q = false) (currentStroke b) →
  _end uuid b =
  (Normal tt,
   Board (paint_stroke (hctx b) (finished_stroke uuid b)) (rctx b)
     (with_painted [] (lctx b)) (color b) (size b)
     (strokes b ++ [finished_stroke uuid b]) [] false (remoteStrokes b) VNull
     (lastEmit b),
   [Send "draw:end" (finished_stroke uuid b)]).
Proof.
  intros Hd Hcs.
  assert (well_formed_stroke (finished_stroke uuid b)) as Hwf.
  { split; [done|]. right. by exists (currentStroke b). }
  pose proof (_drawSmooth_stroke css_color string_to_number array_to_number js_add js_half
                (finished_stroke uuid b) (hctx b) Hwf) as Hdraw.
  change (field (finished_stroke uuid b) "points") with (VArr (currentStroke b)) in Hdraw.
  change (field (finished_stroke uuid b) "color") with (color b) in Hdraw.
  change (field (finished_stroke uuid b) "size") with (size b) in Hdraw.
  unfold _end, set_strokes, set_isDrawing, set_currentStroke,
    set_localTempId, socket_emit, on_hctx, on_lctx, clearRect, set_painted, prop, push.
  monad_unfold. rewrite Hd.
  cbn -[_drawSmooth paint_stroke finished_stroke]. rewrite Hdraw. reflexivity.
Qed.

(** X9.  A pointer-down, any number of pointer moves and a pointer-up, all at
    points, make one stroke: its points are the point of the pointer-down
    followed by the points of the moves, in order, its id is the id drawn at
    the pointer-down, its colour and size are the brush's.  The first message
    sent is the [draw:start] with the first point, the last is the one
    [draw:end] with the whole stroke, and between them only cursor positions
    and [draw:move] messages are sent.  Afterwards the stroke is the last
    entry of the local mirror and painted on the history layer (in its own
    colour and size where the context accepts them, as [syncHistory] would
    paint it), the live layer is clear, and no stroke is in progress. *)
Theorem stroke_gesture (b : board) (p0 : value) (uuid uuid' : string)
    (l : list (value * Z)) :
  nullish p0 = false →
  Forall (λ q, nullish q = false) (l.*1) →
  let run := run_pointer (MouseDown p0 uuid :: moves l ++ [MouseUp uuid']) b in
  let stroke :=
    VObj [("id", js_or (VStr uuid) (VStr uuid')); ("points", VArr (p0 :: l.*1));
          ("color", color b); ("size", size b)] in
  (∃ between,
     run.2 = Send "draw:start"
               (VObj [("id", VStr uuid); ("points", VArr [p0]);
                      ("color", color b); ("size", size b)])
             :: between ++ [Send "draw:end" stroke] ∧
     Forall live_message between) ∧
  strokes run.1 = strokes b ++ [stroke] ∧
  painted (hctx run.1) = painted (hctx b) ++ stroke_paints_on (hctx b) stroke ∧
  (styled_stroke stroke = true →
     painted (hctx run.1) = painted (hctx b) ++ stroke_paints stroke) ∧
  painted (lctx run.1) = [] ∧
  isDrawing run.1 = false ∧
  currentStroke run.1 = [] ∧
  _localTempId run.1 = VNull ∧
  rctx run.1 = rctx b ∧
  remoteStrokes run.1 = remoteStrokes b.
Proof.
  intros Hp0 Hl run stroke. subst run.
  change (MouseDown p0 uuid :: moves l ++ [MouseUp uuid'])
    with ([MouseDown p0 uuid] ++ moves l ++ [MouseUp uuid']).
  rewrite !run_pointer_app.
  set (b1 := (run_pointer [MouseDown p0 uuid] b).1).
  assert (b1 = Board (hctx b) (rctx b) (lctx b) (color b) (size b) (strokes b) [p0] true
                 (remoteStrokes b) (VStr uuid) (lastEmit b)) as Hb1 by done.
  assert ((run_pointer [MouseDown p0 uuid] b).2 =
          [Send "draw:start" (VObj [("id", VStr uuid); ("points", VArr [p0]);
                                    ("color", color b); ("size", size b)])]) as -> by done.
  destruct (run_moves_drawing l b1) as (live & t & between & Hrun & Hbetween).
  { by rewrite Hb1. }
  { rewrite Hb1. by apply Forall_singleton. }
  { done. }
  rewrite Hrun. cbn [fst snd]. rewrite Hb1.
  cbn [hctx rctx lctx color size strokes currentStroke remoteStrokes _localTempId app].
  set (b2 := Board _ _ _ _ _ _ _ _ _ _ _).
  pose proof (_end_unfold uuid' b2) as Hend. specialize (Hend eq_refl).
  specialize (Hend ltac:(by apply Forall_cons)).
  cbn [run_pointer on_pointer]. rewrite Hend.
  cbn [state_after effects_of fst snd hctx rctx lctx strokes isDrawing currentStroke
       _localTempId remoteStrokes painted with_painted].
  assert (painted (paint_stroke (hctx b2) (finished_stroke uuid' b2)) =
          painted (hctx b) ++ stroke_paints_on (hctx b) stroke) as Hpainted.
  { by rewrite (painted_paint_stroke css_color string_to_number array_to_number
                  js_add js_half). }
  split_and!; try done.
  - exists between. split; [|done]. by rewrite app_nil_r.
  - intros Hstyled. rewrite Hpainted.
    by rewrite (stroke_paints_on_styled css_color string_to_number array_to_number
                  js_add js_half).
Qed.

(** ** While no stroke is in progress *)

Lemma _end_idle uuid b : isDrawing b = false → _end uuid b = (Normal tt, b, []).
Proof. intros Hd. unfold _end. monad_unfold. by rewrite Hd. Qed.

Lemma _end_not_drawing uuid b : isDrawing (state_after (_end uuid b)) = false.
Proof.
  destruct (isDrawing b) eqn:Hd; [|by rewrite _end_idle].
  unfold _end, set_strokes, set_isDrawing, set_currentStroke,
    set_localTempId, socket_emit, on_hctx, on_lctx, clearRect, set_painted, prop.
  monad_unfold. rewrite Hd. cbn [negb nullish].
  match goal with
  | |- context [_drawSmooth ?p ?c ?s ?x] =>
      destruct (_drawSmooth_result css_color string_to_number array_to_number
                  js_add js_half p c s x) as (r & c' & ->)
  end.
  by destruct r as [[]|e].
Qed.

(** X10.  A stroke is committed once: whatever [_end] did, no stroke is in
    progress after it, and while none is in progress pointer moves and
    pointer releases leave the board exactly as it is and send nothing but
    the cursor positions of the moves.  A second release, or a release without
    a press, commits nothing. *)
Theorem idle_pointer :
  (∀ uuid b, isDrawing (state_after (_end uuid b)) = false) ∧
  (∀ es b, isDrawing b = false → Forall (λ e, is_mouse_down e = false) es →
     run_pointer es b = (b, omap cursor_message es)).
Proof.
  split; [apply _end_not_drawing|].
  induction es as [|e es IH]; intros b Hd Hes; [done|].
  apply Forall_cons in Hes as [He Hes].
  cbn [run_pointer omap list_omap].
  destruct e as [p uuid|p now|uuid]; [done| |].
  - rewrite on_mouse_move, _move_idle by done. cbn [state_after effects_of fst snd].
    fold run_pointer. rewrite IH by done. done.
  - cbn [on_pointer]. rewrite _end_idle by done.
    cbn [state_after effects_of fst snd]. fold run_pointer. rewrite IH by done. done.
Qed.

(** ** What a committed stroke paints *)

Lemma commitRemoteStroke_unfold stroke b :
  truthy stroke = true → well_formed_stroke stroke →
  let key := property_key to_string (field stroke "id") in
  let tracked :=
    truthy (field stroke "id") &&
    match remoteStrokes b !! key with
    | Some entry => truthy entry
    | None => inherited key
    end in
  commitRemoteStroke stroke b =
  (Normal tt,
   Board (paint_stroke (hctx b) stroke)
     (if tracked then with_painted [] (rctx b) else rctx b) (lctx b)
     (color b) (size b) (strokes b ++ [stroke]) (currentStroke b) (isDrawing b)
     (if tracked then delete key (remoteStrokes b) else remoteStrokes b)
     (_localTempId b) (lastEmit b),
   []).
Proof.
  intros Hs Hwf key tracked.
  pose proof (_drawSmooth_stroke css_color string_to_number array_to_number js_add js_half
                stroke (hctx b) Hwf) as Hdraw.
  unfold commitRemoteStroke, set_strokes, set_remoteStrokes, on_hctx, on_rctx,
    clearRect, set_painted, prop, push.
  rewrite Hs, (truthy_not_nullish _ Hs). cbn [negb]. monad_unfold.
  cbn -[_drawSmooth paint_stroke]. rewrite Hdraw.
  cbn [remoteStrokes with_hctx with_strokes]. fold key. fold tracked.
  by destruct tracked.
Qed.

(** What a stroke paints depends on the stroke settings of the context
    only. *)
Lemma stroke_paints_on_settings c c' s :
  strokeStyle c = strokeStyle c' → lineWidth c = lineWidth c' →
  stroke_paints_on c s = stroke_paints_on c' s.
Proof. unfold stroke_paints_on. by intros -> ->. Qed.

Lemma syncHistory_single s b :
  well_formed_stroke s →
  painted (hctx (state_after (syncHistory (VArr [s]) b))) = stroke_paints_on (hctx b) s.
Proof.
  intros Hwf.
  rewrite (syncHistory_unfold css_color string_to_number array_to_number js_add js_half).
  cbn [snapshot_of].
  rewrite (repaint_well_formed css_color string_to_number array_to_number js_add js_half
             [s] (proj2 (Forall_singleton _ _) Hwf)).
  cbn [state_after fst snd hctx clear_previews with_hctx with_rctx with_lctx foldl].
  rewrite (painted_paint_stroke css_color string_to_number array_to_number
             js_add js_half).
  cbn [painted with_painted app]. by apply stroke_paints_on_settings.
Qed.

(** X11.  A stroke is painted the same way on every path.  When a stroke is
    well formed and the context accepts its colour and size, what
    [commitRemoteStroke] adds to the history layer for it, and what [_end]
    adds for the stroke it finishes, is exactly what [syncHistory] paints for
    a snapshot that consists of that stroke, on any board.  For a stroke
    whose colour or size the context does not accept this holds between
    boards whose history layers hold the same stroke settings. *)
Theorem paint_parity (b b' : board) :
  (∀ s, well_formed_stroke s →
     styled_stroke s = true ∨
     (strokeStyle (hctx b) = strokeStyle (hctx b') ∧
      lineWidth (hctx b) = lineWidth (hctx b')) →
     painted (hctx (state_after (commitRemoteStroke s b))) =
     painted (hctx b) ++ painted (hctx (state_after (syncHistory (VArr [s]) b')))) ∧
  (∀ uuid, isDrawing b = true → Forall (λ q, nullish q = false) (currentStroke b) →
     styled_stroke (finished_stroke uuid b) = true ∨
     (strokeStyle (hctx b) = strokeStyle (hctx b') ∧
      lineWidth (hctx b) = lineWidth (hctx b')) →
     painted (hctx (state_after (_end uuid b))) =
     painted (hctx b) ++
     painted (hctx (state_after (syncHistory (VArr [finished_stroke uuid b]) b')))).
Proof.
  assert (∀ s, styled_stroke s = true ∨
               (strokeStyle (hctx b) = strokeStyle (hctx b') ∧
                lineWidth (hctx b) = lineWidth (hctx b')) →
               stroke_paints_on (hctx b) s = stroke_paints_on (hctx b') s) as Hsame.
  { intros s [Hstyled|[Hstyle Hwidth]]; [|by apply stroke_paints_on_settings].
    by rewrite !(stroke_paints_on_styled css_color string_to_number array_to_number
                   js_add js_half). }
  split.
  - intros s Hwf Hs. rewrite syncHistory_single, <-Hsame by done.
    destruct (truthy s) eqn:Htruthy.
    + rewrite commitRemoteStroke_unfold by done. cbn [state_after fst snd hctx].
      apply (painted_paint_stroke css_color string_to_number array_to_number
               js_add js_half).
    + rewrite (commitRemoteStroke_falsy css_color string_to_number array_to_number
                 js_add js_half) by done.
      cbn [state_after fst snd]. destruct Hwf as [Hnn _]. unfold stroke_paints_on.
      destruct s as [| |[]|[| | |q]|str| |]; try done; cbn in *; by rewrite app_nil_r.
  - intros uuid Hd Hcs Hs. rewrite _end_unfold by done.
    rewrite syncHistory_single, <-Hsame; [| done |split; [done|right; by eexists]].
    cbn [state_after fst snd hctx].
    apply (painted_paint_stroke css_color string_to_number array_to_number
             js_add js_half).
Qed.

(** ** Remote previews *)


(** ** Errors of the renderer *)

Lemma curve_segments_array_outcome fuel ps :
  ∀ i, (length ps - i < fuel)%nat →
    (curve_segments string_to_number array_to_number js_add js_half
       fuel (VArr ps) i).1 = Normal tt ↔
    ((S i < length ps)%nat →
     ∀ j, (i ≤ j < length ps)%nat → nullish (elem (VArr ps) j) = false).
Proof.
  induction fuel as [|fuel IH]; intros i Hfuel; [lia|].
  cbn [curve_segments]. rewrite field_array_length. cbn [to_number].
  rewrite number_lt_pred_of_nat. case_bool_decide as Hi; [|by split; [lia|]].
  unfold curve_segment. rewrite Nat.add_1_r.
  destruct (nullish (elem (VArr ps) i)) eqn:Hei.
  { cbn [orb fst]. split; [done|]. intros Hall. rewrite Hall in Hei by lia. done. }
  destruct (nullish (elem (VArr ps) (S i))) eqn:Hesi.
  { cbn [orb fst]. split; [done|]. intros Hall. rewrite Hall in Hesi by lia. done. }
  cbn [orb]. specialize (IH (S i)).
  destruct (curve_segments _ _ _ _ fuel (VArr ps) (S i)) as [r sgs].
  cbn [fst] in *. rewrite IH by lia. split.
  - intros Hrest _ j Hj.
    destruct (decide (j = i)) as [->|]; [done|].
    destruct (decide (j = S i)) as [->|]; [done|].
    apply Hrest; lia.
  - intros Hall Hssi j Hj. apply Hall; lia.
Qed.


(** ** Server and client together *)

Local Abbreviation deliver :=
  (deliver css_color string_to_number array_to_number js_add js_half to_string inherited).
Local Abbreviation listener :=
  (listener css_color string_to_number array_to_number js_add js_half to_string
     inherited).

Lemma syncHistory_result h b :
  let r := syncHistory (VArr h) b in
  strokes (state_after r) = h ∧
  (Forall well_formed_stroke h →
     outcome r = Normal tt ∧
     painted (rctx (state_after r)) = [] ∧
     painted (lctx (state_after r)) = [] ∧
     (Forall (λ s, styled_stroke s = true) h →
        painted (hctx (state_after r)) = concat (stroke_paints <$> h))).
Proof.
  cbn zeta. split.
  - apply (syncHistory_strokes css_color string_to_number array_to_number js_add js_half
             (VArr h)).
  - intros Hwf.
    rewrite (syncHistory_unfold css_color string_to_number array_to_number js_add js_half).
    cbn [snapshot_of].
    rewrite (repaint_well_formed css_color string_to_number array_to_number js_add js_half
               h Hwf).
    cbn [outcome state_after fst snd hctx rctx lctx clear_previews with_hctx with_rctx
         with_lctx with_strokes with_painted painted].
    split_and!; try done. intros Hstyled.
    by rewrite (painted_history_styled css_color string_to_number array_to_number
                  js_add js_half).
Qed.

Lemma json_history h : Forall (λ x, json x = true) h → json (VArr h) = true.
Proof.
  intros Hh. change (forallb json h = true).
  induction Hh as [|x l Hx _ IH]; [done|]. cbn [forallb]. by rewrite Hx, IH.
Qed.

Lemma deliver_snapshot h b :
  Forall (λ x, json x = true) h →
  ∃ out,
    deliver [("sync:history", PValue (U:=Server.user) (VArr h))] b =
    Some (state_after (syncHistory (VArr h) b), out).
Proof.
  intros Hh. cbn [deliver]. unfold listener, arrives.
  rewrite (json_history h Hh). cbn -[syncHistory].
  unfold on_sync_history, lift_action.
  destruct (syncHistory (VArr h) b) as [[r b'] es]. cbn. eauto.
Qed.

Ltac use_result H :=
  cbn zeta in H; destruct H as [Hstrokes Hpaint];
  split; [exact Hstrokes|];
  let Hwf := fresh in intros Hwf; by destruct (Hpaint Hwf) as (_ & ? & ? & ?).

Lemma deliver_draw_end x (msgs : list (string * payload Server.user)) b :
  json x = true →
  deliver (("draw:end", PValue x) :: msgs) b =
  match deliver msgs (state_after (commitRemoteStroke x b)) with
  | Some (b', out) => Some (b', (Emitted <$> effects_of (commitRemoteStroke x b)) ++ out)
  | None => None
  end.
Proof.
  intros Hx. cbn [deliver]. unfold listener, arrives. rewrite Hx.
  cbn -[commitRemoteStroke deliver].
  unfold on_draw_end_message, lift_action.
  by destruct (commitRemoteStroke x b) as [[r1 b1] es1].
Qed.

End Pointer.

(** ** Samples for the client *)

Lemma move_throttle_witness :
  let b1 := state_after (Sample._start (point 0 0) "s1" board0) in
  (run_pointer Sample.css_color Sample.string_to_number Sample.array_to_number
     exact_add exact_half (moves [(point 1 1, 10%Z); (point 2 2, 30%Z)]) board0).2 =
    [Send "cursor:move" (point 1 1); Send "cursor:move" (point 2 2)] ∧
  effects_of
    (on_pointer Sample.css_color Sample.string_to_number Sample.array_to_number
       exact_add exact_half (MouseMove (point 4 2) 1000) b1) =
    [Send "cursor:move" (point 4 2);
     Send "draw:move"
       (VObj [("points", VArr [point 4 2]); ("color", VStr "#10A37F");
              ("size", VNum (Fin 10)); ("id", VStr "s1")])].
Proof.
  destruct (move_throttle Sample.css_color Sample.string_to_number Sample.array_to_number
              exact_add exact_half board0) as [Hearly _].
  destruct (move_throttle Sample.css_color Sample.string_to_number Sample.array_to_number
              exact_add exact_half
              (state_after (Sample._start (point 0 0) "s1" board0))) as [_ Hlate].
  split.
  - apply (Hearly [(point 1 1, 10%Z); (point 2 2, 30%Z)]).
    repeat constructor; by vm_compute.
  - destruct (Hlate (point 4 2) 1000%Z) as (_ & _ & _ & Hemit).
    + reflexivity.
    + by repeat constructor.
    + apply Hemit. reflexivity.
Defined.

Lemma stroke_gesture_witness :
  let run :=
    run_pointer Sample.css_color Sample.string_to_number Sample.array_to_number
      exact_add exact_half
      (MouseDown (point 0 0) "s1"
       :: moves [(point 4 2, 1000%Z); (point 8 6, 1010%Z)] ++ [MouseUp "s2"]) board0 in
  strokes run.1 = [stroke1] ∧
  painted (hctx run.1) = Sample.stroke_paints stroke1 ∧
  isDrawing run.1 = false.
Proof.
  destruct (stroke_gesture Sample.css_color Sample.string_to_number
              Sample.array_to_number exact_add exact_half board0 (point 0 0) "s1" "s2"
              [(point 4 2, 1000%Z); (point 8 6, 1010%Z)])
    as (_ & Hstrokes & _ & Hpaint & _ & Hidle & _).
  - reflexivity.
  - by repeat constructor.
  - split_and!; [exact Hstrokes| |exact Hidle].
    apply Hpaint. reflexivity.
Defined.

Lemma idle_pointer_witness :
  run_pointer Sample.css_color Sample.string_to_number Sample.array_to_number
    exact_add exact_half
    [MouseMove (point 1 1) 1000; MouseUp "s1"; MouseMove (point 2 2) 2000] board0 =
  (board0, [Send "cursor:move" (point 1 1); Send "cursor:move" (point 2 2)]).
Proof.
  apply (idle_pointer Sample.css_color Sample.string_to_number Sample.array_to_number
           exact_add exact_half).
  - reflexivity.
  - by repeat constructor.
Defined.

Lemma paint_parity_witness :
  let b := Board (with_painted [preview] blank) blank blank (VStr "#E64C3C")
             (VNum (Fin 4)) [] [point 0 0; point 4 2; point 8 6] true ∅ (VStr "s5") 0 in
  painted (hctx (state_after (Sample.commitRemoteStroke stroke1 b))) =
    painted (hctx b) ++
    painted (hctx (state_after (Sample.syncHistory (VArr [stroke1]) board0))) ∧
  painted (hctx (state_after (Sample.commitRemoteStroke plain_stroke b))) =
    painted (hctx b) ++
    painted (hctx (state_after (Sample.syncHistory (VArr [plain_stroke]) board0))) ∧
  painted (hctx (state_after (Sample._end "s6" b))) =
    painted (hctx b) ++
    painted (hctx (state_after
                     (Sample.syncHistory (VArr [finished_stroke "s6" b]) board0))).
Proof.
  set (b := Board (with_painted [preview] blank) blank blank (VStr "#E64C3C")
              (VNum (Fin 4)) [] [point 0 0; point 4 2; point 8 6] true ∅ (VStr "s5") 0).
  destruct (paint_parity Sample.css_color Sample.string_to_number Sample.array_to_number
              exact_add exact_half Sample.to_string Sample.inherited b board0)
    as [Hcommit Hend].
  split_and!.
  - refine (Hcommit stroke1 _ _).
    + split; [reflexivity|]. right. eexists. split; [reflexivity|]. by repeat constructor.
    + left. reflexivity.
  - refine (Hcommit plain_stroke _ _).
    + split; [reflexivity|]. right. eexists. split; [reflexivity|]. by repeat constructor.
    + right. split; reflexivity.
  - refine (Hend "s6" _ _ _).
    + reflexivity.
    + by repeat constructor.
    + left. reflexivity.
Defined.



